(** * ICG: an inversive congruential generator (ICG.h, ICG.cpp)

    A shallow embedding of the class [ICG] and a verification of its
    specification.  Integers of the program are [Z] with the wrap-around of
    their C++ type written out, doubles are the binary64 numbers of
    [PrimFloat], and a call that need not return is a function of a fuel
    that yields [None] when the fuel does not reach the end of a loop. *)

From Stdlib Require Import ZArith Znumtheory Zpow_facts Bool List Lia Floats.
Import ListNotations.
Local Open Scope Z_scope.

(** ** Machine integers

    [unsigned long long] and [long long] have 64 bits.  The width of
    [unsigned long] is left to the platform by C++: 32 bits under ILP32 and
    LLP64, 64 bits under LP64.  Every definition takes the data model as
    its first argument. *)

Inductive data_model : Set := Long32 | Long64.

Definition ulong_bits (m : data_model) : Z :=
  match m with Long32 => 32 | Long64 => 64 end.

(** Conversion to [unsigned long], to [unsigned long long] and to
    [long long] (two's complement). *)
Definition to_ulong (m : data_model) (z : Z) : Z := z mod 2 ^ ulong_bits m.
Definition to_ullong (z : Z) : Z := z mod 2 ^ 64.
Definition to_llong (z : Z) : Z := (z + 2 ^ 63) mod 2 ^ 64 - 2 ^ 63.

Definition in_ulong (m : data_model) (z : Z) : Prop := 0 <= z < 2 ^ ulong_bits m.

(** ** Calls that may not return *)

Definition bind {A B : Type} (c : option A) (k : A -> option B) : option B :=
  match c with
  | Some x => k x
  | None => None
  end.

Notation "x <- c ;; k" := (bind c (fun x => k))
  (at level 61, c at next level, right associativity).
Notation "' pat <- c ;; k" := (bind c (fun x => match x with pat => k end))
  (at level 61, pat pattern, c at next level, right associativity).

(** ** Doubles

    [double] is IEEE binary64.  [double_of_Z] is the conversion of an
    integer to the nearest double; [Z_of_double] truncates toward zero (the
    conversion of a NaN or an infinity to an integer is undefined in C++;
    it is 0 here). *)

Definition double : Set := float.

Definition double_of_Z (z : Z) : double :=
  SF2Prim (binary_normalize prec emax z 0 false).

Definition Z_of_double (f : double) : Z :=
  match Prim2SF f with
  | S754_finite s mant e =>
      let v := if 0 <=? e then Z.pos mant * 2 ^ e else Z.pos mant / 2 ^ (- e) in
      if s then - v else v
  | _ => 0
  end.

Definition ulong_of_double (m : data_model) (f : double) : Z :=
  to_ulong m (Z_of_double f).

(** ** The generator *)

Record ICG : Set := mkICG {
  generatorIsValid : bool;
  p : Z;
  a : Z;
  b : Z;
  seed : Z;
  curRand : Z;
  mullerNormal : double;
  useMullerNormal : bool
}.

Definition set_generatorIsValid (g : ICG) (v : bool) : ICG :=
  mkICG v (p g) (a g) (b g) (seed g) (curRand g) (mullerNormal g) (useMullerNormal g).

Definition set_curRand (g : ICG) (c : Z) : ICG :=
  mkICG (generatorIsValid g) (p g) (a g) (b g) (seed g) c
        (mullerNormal g) (useMullerNormal g).

Definition set_seed (g : ICG) (s : Z) : ICG :=
  mkICG (generatorIsValid g) (p g) (a g) (b g) s (curRand g)
        (mullerNormal g) (useMullerNormal g).

Definition set_muller (g : ICG) (x : double) (u : bool) : ICG :=
  mkICG (generatorIsValid g) (p g) (a g) (b g) (seed g) (curRand g) x u.

(** ** ICG::isPrime *)

(** [(unsigned long) (sqrt (pr))]. *)
Definition sqrt_ulong (m : data_model) (pr : Z) : Z :=
  ulong_of_double m (PrimFloat.sqrt (double_of_Z pr)).

(** The loop [while (cur <= max) { if (pr % cur == 0) return false; cur += 2; }]
    followed by [return true]. *)
Fixpoint isPrime_loop (m : data_model) (fuel : nat) (pr max cur : Z) : option bool :=
  match fuel with
  | O => None
  | S fuel' =>
      if cur <=? max then
        if pr mod cur =? 0 then Some false
        else isPrime_loop m fuel' pr max (to_ulong m (cur + 2))
      else Some true
  end.

Definition isPrime (m : data_model) (fuel : nat) (pr : Z) : option bool :=
  if (pr =? 0) || (pr =? 1) then Some false
  else if (pr =? 2) || (pr =? 3) then Some true
  else if pr mod 2 =? 0 then Some false
  else isPrime_loop m fuel pr (sqrt_ulong m pr) 3.

(** ** ICG::inverse *)

(** The variables of the extended Euclidean loop that live across
    iterations; [q] and [Rn] are assigned before they are read in every
    iteration and are local to the body here. *)
Record euclid : Set := mkEuclid {
  rn : Z;
  rn1 : Z;
  rn2 : Z;
  Rn1 : Z;
  Rn2 : Z
}.

Definition euclid_body (s : euclid) : euclid :=
  let rn2' := rn s mod rn1 s in
  let q := to_llong (rn s / rn1 s) in
  let Rn := to_llong (Rn2 s - to_llong (q * Rn1 s)) in
  if rn2' =? 0 then mkEuclid (rn s) (rn1 s) rn2' (Rn1 s) (Rn2 s)
  else mkEuclid (rn1 s) rn2' rn2' Rn (Rn1 s).

(** [while (rn2 != 0) { ... }] *)
Fixpoint euclid_loop (fuel : nat) (s : euclid) : option euclid :=
  match fuel with
  | O => None
  | S fuel' => if rn2 s =? 0 then Some s else euclid_loop fuel' (euclid_body s)
  end.

(** [while (Rn1 < 0) Rn1 += p;] where [Rn1] is a [long long] and [p] an
    [unsigned long long]: the sum is formed in [unsigned long long] and
    converted back. *)
Fixpoint normalize_loop (fuel : nat) (P R : Z) : option Z :=
  match fuel with
  | O => None
  | S fuel' =>
      if R <? 0 then normalize_loop fuel' P (to_llong (to_ullong (to_ullong R + P)))
      else Some R
  end.

Definition inverse (m : data_model) (fuel : nat) (g : ICG) (y : Z) : option Z :=
  if y =? 0 then Some 0
  else if y =? 1 then Some 1
  else if y >=? p g then Some 0
  else
    let rn0 := to_ulong m (p g) in
    s <- euclid_loop fuel (mkEuclid rn0 y (rn0 mod y) 1 0) ;;
    R <- normalize_loop fuel (p g) (Rn1 s) ;;
    Some (to_ulong m R).

(** ** ICG::checkGeneratorIsValid, the constructor, reparametrize, reseed *)

(** [&&] evaluates from left to right and stops at the first false operand:
    [isPrime] is called exactly when [p > 3]. *)
Definition checkGeneratorIsValid (m : data_model) (fuel : nat) (g : ICG) : option ICG :=
  if p g >? 3 then
    pr <- isPrime m fuel (to_ulong m (p g)) ;;
    Some (set_generatorIsValid g
            (pr && (a g <? p g) && (b g <? p g) && (seed g <? p g)))
  else Some (set_generatorIsValid g false).

(** The constructor initialises neither [mullerNormal] nor
    [useMullerNormal]: [mn0] and [um0] are what their storage holds. *)
Definition ICG_new (m : data_model) (fuel : nat) (p' a' b' seed' : Z)
    (mn0 : double) (um0 : bool) : option ICG :=
  checkGeneratorIsValid m fuel (mkICG false p' a' b' seed' seed' mn0 um0).

Definition reparametrize (m : data_model) (fuel : nat) (g : ICG)
    (p' a' b' seed' : Z) : option (bool * ICG) :=
  g' <- checkGeneratorIsValid m fuel
          (mkICG false p' a' b' seed' seed' (mullerNormal g) (useMullerNormal g)) ;;
  Some (generatorIsValid g', g').

Definition reseed (m : data_model) (fuel : nat) (g : ICG) (newSeed : Z)
    : option (bool * ICG) :=
  let g1 := set_generatorIsValid g false in
  let g2 := set_seed g1 newSeed in
  let g3 := set_curRand g2 (seed g2) in
  g' <- checkGeneratorIsValid m fuel g3 ;;
  Some (generatorIsValid g', g').

(** ** ICG::rand *)

Definition rand (m : data_model) (fuel : nat) (g : ICG) : option (Z * ICG) :=
  if negb (generatorIsValid g) then Some (0, g)
  else if curRand g =? 0 then
    let g' := set_curRand g (to_ulong m (b g)) in
    Some (to_ulong m (curRand g'), g')
  else
    inv <- inverse m fuel g (to_ulong m (curRand g)) ;;
    let temp := to_ullong (to_ullong (a g * inv) + b g) mod p g in
    let g' := set_curRand g (to_ulong m temp) in
    Some (to_ulong m (curRand g'), g').

(** The values returned by [n] successive calls of [rand]. *)
Fixpoint rands (m : data_model) (fuel : nat) (n : nat) (g : ICG) : option (list Z) :=
  match n with
  | O => Some []
  | S n' =>
      '(x, g') <- rand m fuel g ;;
      xs <- rands m fuel n' g' ;;
      Some (x :: xs)
  end.

(** ** The uniform samplers *)

Local Open Scope float_scope.

Definition rand01 (m : data_model) (fuel : nat) (g : ICG) : option (double * ICG) :=
  if negb (generatorIsValid g) then Some (0, g)
  else
    '(r, g') <- rand m fuel g ;;
    Some (double_of_Z r / double_of_Z (p g'), g').

(** [rand (unsigned long range)]. *)
Definition rand_range (m : data_model) (fuel : nat) (g : ICG) (range : Z)
    : option (Z * ICG) :=
  '(u, g') <- rand01 m fuel g ;;
  Some (ulong_of_double m (u * double_of_Z range), g').

Definition randInterval (m : data_model) (fuel : nat) (g : ICG) (A B : double)
    : option (double * ICG) :=
  if negb (generatorIsValid g) then Some (0, g)
  else if B =? A then Some (A, g)
  else
    let '(A, B) := if B <? A then (B, A) else (A, B) in
    '(r, g') <- rand m fuel g ;;
    Some (double_of_Z r / double_of_Z (p g') * (B - A) + A, g').

(** ** The Gaussian samplers *)

(** [const double EPS = 0.0001]: the double nearest to one ten-thousandth. *)
Definition EPS : double := 0x1.a36e2eb1c432dp-14.

(** The body and the test of [do { ... } while (q <= EPS || q > 1.0)];
    [n] counts the iterations that are left, [fuel] goes to the calls. *)
Fixpoint polar_loop (m : data_model) (fuel : nat) (n : nat) (g : ICG)
    : option (double * double * double * ICG) :=
  match n with
  | O => None
  | S n' =>
      '(u1, g1) <- randInterval m fuel g (-1) 1 ;;
      '(u2, g2) <- randInterval m fuel g1 (-1) 1 ;;
      let q := u1 * u1 + u2 * u2 in
      if (q <=? EPS) || (1 <? q) then polar_loop m fuel n' g2
      else Some (u1, u2, q, g2)
  end.

Section Libm.

(** [log] of <math.h>; [sqrt] is the correctly rounded square root. *)
Variable log : double -> double.

Definition randStdNorm (m : data_model) (fuel : nat) (g : ICG)
    : option (double * ICG) :=
  if useMullerNormal g then
    Some (mullerNormal g, set_muller g (mullerNormal g) false)
  else
    '(u1, u2, q, g') <- polar_loop m fuel fuel g ;;
    let r := sqrt (-2 * log q / q) in
    Some (r * u1, set_muller g' (r * u2) true).

Definition randNormal (m : data_model) (fuel : nat) (g : ICG) (mu ss : double)
    : option (double * ICG) :=
  '(z, g') <- randStdNorm m fuel g ;;
  Some (sqrt ss * z + mu, g').

End Libm.

Local Close Scope float_scope.

(** * Specification vocabulary *)

(** ** Trial division *)

(** The only fact about the floating-point square root that [isPrime]
    relies on: truncated to an integer it is the integer square root or its
    successor.  A correctly rounded [sqrt] has this property on every
    64-bit integer; it is stated at the number under test. *)
Definition sqrt_accurate (m : data_model) (pr : Z) : Prop :=
  Z.sqrt pr <= sqrt_ulong m pr <= Z.sqrt pr + 1.

Definition no_odd_divisor (pr lo hi : Z) : Prop :=
  forall d : Z, lo <= d <= hi -> Z.odd d = true -> pr mod d <> 0.

(** The validity predicate of the specification. *)
Definition valid_parameters (p' a' b' seed' : Z) : Prop :=
  3 < p' /\ prime p' /\ a' < p' /\ b' < p' /\ seed' < p'.

(** ** The invariant of the extended Euclidean loop *)

(** [Rn1] and [Rn2] have opposite signs, and with [A = |Rn1|],
    [B = |Rn2|] the determinant [rn1 * B + rn * A] stays equal to [P]. *)
Definition euclid_inv (P y : Z) (s : euclid) : Prop :=
  0 < rn1 s < rn s /\
  (rn2 s = 0 -> rn s mod rn1 s = 0) /\
  Z.gcd (rn s) (rn1 s) = Z.gcd P y /\
  exists sg A B k1 k2 : Z,
    (sg = 1 \/ sg = -1) /\ 1 <= A /\ 0 <= B /\
    Rn1 s = sg * A /\ Rn2 s = - sg * B /\
    rn1 s * B + rn s * A = P /\
    Rn1 s * y = rn1 s + k1 * P /\ Rn2 s * y = rn s + k2 * P.

(** ** Well-formed generators

    The fields hold [unsigned long] values (they are only ever assigned
    from arguments and conversions of that type), and a generator whose
    flag is set satisfies the range conditions of [checkGeneratorIsValid]. *)
Definition wf (m : data_model) (g : ICG) : Prop :=
  in_ulong m (p g) /\ in_ulong m (a g) /\ in_ulong m (b g) /\
  in_ulong m (seed g) /\ in_ulong m (curRand g) /\
  (generatorIsValid g = true ->
   3 < p g /\ a g < p g /\ b g < p g /\ seed g < p g /\ curRand g < p g).


(** The fields that only the constructor, [reparametrize] and [reseed]
    assign. *)
Definition same_parameters (g1 g2 : ICG) : Prop :=
  generatorIsValid g1 = generatorIsValid g2 /\ p g1 = p g2 /\ a g1 = a g2 /\
  b g1 = b g2 /\ seed g1 = seed g2.

(** The test of the do-while loop of [randStdNorm]. *)
Definition rejected (u1 u2 : double) : bool :=
  ((u1 * u1 + u2 * u2 <=? EPS) || (1 <? u1 * u1 + u2 * u2))%float.

(** The generators that a program can hold: constructed from arguments of
    type [unsigned long], then passed through the public member functions. *)
Inductive reachable (log : double -> double) (m : data_model) : ICG -> Prop :=
| reach_new (fuel : nat) (p' a' b' seed' : Z) (mn : double) (um : bool) (g : ICG) :
    in_ulong m p' -> in_ulong m a' -> in_ulong m b' -> in_ulong m seed' ->
    ICG_new m fuel p' a' b' seed' mn um = Some g -> reachable log m g
| reach_reparametrize (fuel : nat) (g : ICG) (p' a' b' seed' : Z) (r : bool) (g' : ICG) :
    reachable log m g ->
    in_ulong m p' -> in_ulong m a' -> in_ulong m b' -> in_ulong m seed' ->
    reparametrize m fuel g p' a' b' seed' = Some (r, g') -> reachable log m g'
| reach_reseed (fuel : nat) (g : ICG) (s : Z) (r : bool) (g' : ICG) :
    reachable log m g -> in_ulong m s ->
    reseed m fuel g s = Some (r, g') -> reachable log m g'
| reach_rand (fuel : nat) (g : ICG) (x : Z) (g' : ICG) :
    reachable log m g -> rand m fuel g = Some (x, g') -> reachable log m g'
| reach_rand_range (fuel : nat) (g : ICG) (range x : Z) (g' : ICG) :
    reachable log m g -> rand_range m fuel g range = Some (x, g') -> reachable log m g'
| reach_rand01 (fuel : nat) (g : ICG) (u : double) (g' : ICG) :
    reachable log m g -> rand01 m fuel g = Some (u, g') -> reachable log m g'
| reach_randInterval (fuel : nat) (g : ICG) (A B u : double) (g' : ICG) :
    reachable log m g -> randInterval m fuel g A B = Some (u, g') -> reachable log m g'
| reach_randStdNorm (fuel : nat) (g : ICG) (z : double) (g' : ICG) :
    reachable log m g -> randStdNorm log m fuel g = Some (z, g') -> reachable log m g'
| reach_randNormal (fuel : nat) (g : ICG) (mu ss z : double) (g' : ICG) :
    reachable log m g -> randNormal log m fuel g mu ss = Some (z, g') ->
    reachable log m g'.

(** * Verification *)

(** ** Conversions that do not wrap *)

Lemma ulong_bits_cases (m : data_model) : ulong_bits m = 32 \/ ulong_bits m = 64.
Proof. destruct m; simpl; auto. Qed.

Lemma ulong_modulus_bounds (m : data_model) :
  2 ^ 32 <= 2 ^ ulong_bits m <= 2 ^ 64.
Proof. destruct m; simpl ulong_bits; lia. Qed.

Lemma to_ulong_id (m : data_model) (z : Z) : in_ulong m z -> to_ulong m z = z.
Proof. intros H. unfold to_ulong. apply Z.mod_small. exact H. Qed.

Lemma to_ulong_range (m : data_model) (z : Z) : in_ulong m (to_ulong m z).
Proof.
  unfold in_ulong, to_ulong. apply Z.mod_pos_bound.
  pose proof (ulong_modulus_bounds m). lia.
Qed.

Lemma to_ullong_id (z : Z) : 0 <= z < 2 ^ 64 -> to_ullong z = z.
Proof. intros H. unfold to_ullong. apply Z.mod_small. exact H. Qed.

Lemma to_llong_id (z : Z) : - 2 ^ 63 <= z < 2 ^ 63 -> to_llong z = z.
Proof.
  intros H. unfold to_llong.
  rewrite Z.mod_small by lia. lia.
Qed.

Lemma bind_some {A B : Type} (c : option A) (k : A -> option B) (x : A) :
  c = Some x -> bind c k = k x.
Proof. intros ->. reflexivity. Qed.

(** ** The extended Euclidean loop of [inverse] *)

Section EuclidLoop.

(** The modulus and the number to invert.  The Bezout coefficients are
    [long long]: they do not wrap when the modulus is below [2^63]. *)
Variables (P y : Z).
Hypothesis P_small : P < 2 ^ 63.
Hypothesis y_range : 2 <= y < P.

Lemma euclid_inv_init : euclid_inv P y (mkEuclid P y (P mod y) 1 0).
Proof.
  unfold euclid_inv; cbn [rn rn1 rn2 Rn1 Rn2].
  split; [lia |]. split; [auto |]. split; [reflexivity |].
  exists 1, 1, 0, 0, (-1). lia.
Qed.

Lemma euclid_body_inv (s : euclid) :
  euclid_inv P y s ->
  euclid_inv P y (euclid_body s) /\
  (rn s mod rn1 s = 0 -> rn2 (euclid_body s) = 0) /\
  (rn s mod rn1 s <> 0 -> rn1 (euclid_body s) < rn1 s).
Proof.
  intros (Hord & Hex & Hg & sg & A & B & k1 & k2 & Hsg & HA & HB & HR1 & HR2 & Hdet & Hb1 & Hb2).
  unfold euclid_body.
  pose proof (Z.div_mod (rn s) (rn1 s) ltac:(lia)) as Hdm.
  pose proof (Z.mod_pos_bound (rn s) (rn1 s) ltac:(lia)) as Hmb.
  set (r := rn s mod rn1 s) in *.
  set (d := rn s / rn1 s) in *.
  assert (Hd1 : 1 <= d) by (unfold d; apply Z.div_le_lower_bound; lia).
  assert (HA' : rn1 s * (B + d * A) + r * A = P) by nia.
  assert (HdA0 : 0 <= d * A) by (apply Z.mul_nonneg_nonneg; lia).
  assert (HrA : 0 <= r * A) by (apply Z.mul_nonneg_nonneg; lia).
  assert (HrB : 0 <= rn1 s * B) by (apply Z.mul_nonneg_nonneg; lia).
  assert (HX : B + d * A <= rn1 s * (B + d * A)).
  { assert (Hmul : forall X : Z, 0 <= X -> X <= rn1 s * X)
      by (intros X HX0; clear - Hord HX0; nia).
    apply Hmul. lia. }
  assert (HdA : 0 <= d * A <= P) by lia.
  assert (HBdA : 0 <= B + d * A <= P) by lia.
  assert (Hrn : rn s <= P).
  { assert (rn s <= rn s * A) by (clear - HA Hord; nia). lia. }
  assert (HdP : d <= P).
  { assert (d <= d * A) by (clear - HA Hd1; nia). lia. }
  rewrite (to_llong_id d) by lia.
  assert (Hq : to_llong (d * Rn1 s) = d * Rn1 s).
  { apply to_llong_id. rewrite HR1. destruct Hsg as [-> | ->]; lia. }
  rewrite Hq.
  assert (HRn : to_llong (Rn2 s - d * Rn1 s) = - sg * (B + d * A)).
  { rewrite to_llong_id; rewrite HR1, HR2; destruct Hsg as [-> | ->]; lia. }
  rewrite HRn.
  destruct (Z.eqb_spec r 0) as [Hr0 | Hr0].
  - split; [| split; cbn [rn rn1 rn2 Rn1 Rn2]; [auto | tauto]].
    unfold euclid_inv; cbn [rn rn1 rn2 Rn1 Rn2].
    split; [lia |]. split; [auto |]. split; [exact Hg |].
    exists sg, A, B, k1, k2. tauto.
  - split; [| split; cbn [rn rn1 rn2 Rn1 Rn2]; [tauto | lia]].
    unfold euclid_inv; cbn [rn rn1 rn2 Rn1 Rn2].
    split; [lia |]. split; [tauto |].
    split; [rewrite <- Hg, Z.gcd_comm; unfold r; rewrite Z.gcd_mod by lia; apply Z.gcd_comm |].
    exists (- sg), (B + d * A), A, (k2 - d * k1), k1.
    rewrite HR1.
    repeat split; try lia; nia.
Qed.

Lemma euclid_loop_spec (n : nat) :
  forall s : euclid,
    euclid_inv P y s -> (Z.to_nat (rn1 s) <= n)%nat ->
    forall fuel : nat, (n + 2 <= fuel)%nat ->
    exists s' : euclid,
      euclid_loop fuel s = Some s' /\ euclid_inv P y s' /\ rn2 s' = 0.
Proof.
  induction n as [| n IH]; intros s Hinv Hn fuel Hfuel.
  - destruct Hinv as ((H1 & _) & _). lia.
  - destruct fuel as [| fuel]; [lia |]. simpl.
    destruct (Z.eqb_spec (rn2 s) 0) as [H0 | H0].
    + exists s. auto.
    + destruct (euclid_body_inv s Hinv) as (Hinv' & Hz & Hlt).
      destruct (Z.eq_dec (rn s mod rn1 s) 0) as [He | He].
      * destruct fuel as [| fuel]; [lia |]. simpl.
        rewrite (Hz He). simpl. eauto.
      * apply IH; [exact Hinv' | | lia].
        specialize (Hlt He).
        destruct Hinv' as ((H1 & _) & _). lia.
Qed.

(** At the exit [rn1] is the greatest common divisor and [Rn1] its
    Bezout coefficient, of absolute value at most [P / 2]. *)
Lemma euclid_exit (s : euclid) :
  euclid_inv P y s -> rn2 s = 0 ->
  - P < Rn1 s < P /\ exists k : Z, Rn1 s * y = Z.gcd P y + k * P.
Proof using P_small y_range.
  intros (Hord & Hex & Hg & sg & A & B & k1 & k2 & Hsg & HA & HB & HR1 & HR2 & Hdet & Hb1 & Hb2) H0.
  specialize (Hex H0).
  assert (Hgcd : Z.gcd (rn s) (rn1 s) = rn1 s).
  { rewrite <- (Z.gcd_mod_l (rn s) (rn1 s)), Hex. simpl. apply Z.abs_eq. lia. }
  split.
  - assert (HrB : 0 <= rn1 s * B) by (apply Z.mul_nonneg_nonneg; lia).
    assert (HrA : 2 * A <= rn s * A) by (apply Z.mul_le_mono_nonneg_r; lia).
    rewrite HR1. destruct Hsg as [-> | ->]; lia.
  - exists k1. rewrite <- Hg, Hgcd. exact Hb1.
Qed.

Lemma normalize_loop_spec (R : Z) (fuel : nat) :
  - P < R < P -> (2 <= fuel)%nat ->
  normalize_loop fuel P R = Some (if R <? 0 then R + P else R).
Proof.
  intros HR Hfuel.
  destruct fuel as [| [| fuel]]; try lia.
  cbn [normalize_loop].
  destruct (Z.ltb_spec R 0) as [Hneg | Hpos]; [| reflexivity].
  assert (H1 : to_ullong R = R + 2 ^ 64).
  { unfold to_ullong. symmetry. apply (Z.mod_unique _ _ (-1)); lia. }
  assert (H2 : to_ullong (to_ullong R + P) = R + P).
  { rewrite H1. unfold to_ullong. symmetry. apply (Z.mod_unique _ _ 1); lia. }
  rewrite H2, to_llong_id by lia.
  destruct (Z.ltb_spec (R + P) 0); [lia | reflexivity].
Qed.

End EuclidLoop.

(** [inverse] returns, and returns the Bezout coefficient of [y] reduced
    into [[0, p)], whenever the modulus is below [2^63]. *)
Lemma inverse_bezout (m : data_model) (g : ICG) (y : Z) (fuel : nat) :
  in_ulong m (p g) -> p g < 2 ^ 63 -> 2 <= y < p g ->
  (Z.to_nat y + 2 <= fuel)%nat ->
  exists z : Z,
    inverse m fuel g y = Some z /\ 0 <= z < p g /\
    (z * y) mod p g = Z.gcd (p g) y mod p g.
Proof.
  intros Hp H63 Hy Hfuel.
  unfold inverse.
  destruct (Z.eqb_spec y 0); [lia |].
  destruct (Z.eqb_spec y 1); [lia |].
  destruct (Z.geb_spec y (p g)); [lia |].
  rewrite (to_ulong_id m (p g) Hp).
  destruct (euclid_loop_spec (p g) y H63 Hy (Z.to_nat y) _ (euclid_inv_init (p g) y Hy))
    with (fuel := fuel) as (s & Hs & Hinv & H0); [simpl; lia | lia |].
  rewrite Hs. cbn [bind].
  destruct (euclid_exit (p g) y H63 Hy s Hinv H0) as (HR & k & Hk).
  rewrite (normalize_loop_spec (p g) H63 (Rn1 s) fuel HR) by lia.
  cbn [bind].
  set (z := if Rn1 s <? 0 then Rn1 s + p g else Rn1 s).
  assert (Hz : 0 <= z < p g) by (unfold z; destruct (Z.ltb_spec (Rn1 s) 0); lia).
  exists z. rewrite to_ulong_id by (unfold in_ulong in *; lia).
  repeat split; try lia.
  replace (z * y) with (Z.gcd (p g) y + (k + (if Rn1 s <? 0 then y else 0)) * p g)
    by (unfold z; destruct (Rn1 s <? 0); lia).
  apply Z.mod_add. lia.
Qed.

(** ** Trial division *)

Lemma sqrt_below_modulus (m : data_model) (pr : Z) :
  in_ulong m pr -> Z.sqrt pr + 3 < 2 ^ ulong_bits m.
Proof.
  intros [H0 H1].
  pose proof (Z.sqrt_spec pr H0) as Hs. cbv zeta in Hs.
  pose proof (Z.sqrt_nonneg pr) as Hn.
  destruct m; simpl ulong_bits in *; nia.
Qed.

Lemma isPrime_loop_spec (m : data_model) (pr max : Z) (n : nat) :
  max + 2 < 2 ^ ulong_bits m ->
  forall cur : Z,
    3 <= cur -> Z.odd cur = true -> (Z.to_nat (max + 2 - cur) <= n)%nat ->
    forall fuel : nat, (n + 1 <= fuel)%nat ->
    exists r : bool,
      isPrime_loop m fuel pr max cur = Some r /\
      (r = true <-> no_odd_divisor pr cur max).
Proof.
  intros Hmax. induction n as [| n IH]; intros cur Hcur Hodd Hn fuel Hfuel;
    (destruct fuel as [| fuel]; [lia |]); cbn [isPrime_loop].
  - destruct (Z.leb_spec cur max) as [Hle | Hgt]; [lia |].
    exists true. split; [reflexivity |]. split; [| reflexivity].
    intros _ d Hd. lia.
  - destruct (Z.leb_spec cur max) as [Hle | Hgt].
    + destruct (Z.eqb_spec (pr mod cur) 0) as [Hdiv | Hndiv].
      * exists false. split; [reflexivity |]. split; [discriminate |].
        intros Hno. exfalso. apply (Hno cur); [lia | exact Hodd | exact Hdiv].
      * rewrite to_ulong_id by (unfold in_ulong; lia).
        destruct (IH (cur + 2)) with (fuel := fuel) as (r & Hr & Hiff); try lia.
        { rewrite Z.odd_add, Hodd. reflexivity. }
        exists r. split; [exact Hr |]. rewrite Hiff. split.
        -- intros Hno d Hd Hdo.
           destruct (Z.eq_dec d cur) as [-> | Hne]; [exact Hndiv |].
           destruct (Z.eq_dec d (cur + 1)) as [-> | Hne1].
           ++ rewrite Z.odd_add, Hodd in Hdo. discriminate.
           ++ apply Hno; [lia | exact Hdo].
        -- intros Hno d Hd. apply Hno. lia.
    + exists true. split; [reflexivity |]. split; [| reflexivity].
      intros _ d Hd. lia.
Qed.

(** An odd number from 5 on is prime exactly when no odd number from 3 to
    its square root divides it; testing one number more changes nothing. *)
Lemma no_odd_divisor_prime (pr max : Z) :
  5 <= pr -> Z.odd pr = true -> Z.sqrt pr <= max < pr ->
  no_odd_divisor pr 3 max <-> prime pr.
Proof.
  intros H5 Hodd Hmax. split.
  - intros Hno. destruct (prime_dec pr) as [Hp | Hnp]; [exact Hp | exfalso].
    destruct (not_prime_divide pr ltac:(lia) Hnp) as (n & Hn & k & Hk).
    pose proof (Z.sqrt_spec pr ltac:(lia)) as Hs. cbv zeta in Hs.
    pose proof (Z.sqrt_nonneg pr) as Hs0.
    assert (Hk1 : 1 < k) by nia.
    assert (Hodds : Z.odd k = true /\ Z.odd n = true).
    { rewrite Hk, Z.odd_mul in Hodd. apply andb_true_iff in Hodd. exact Hodd. }
    destruct Hodds as [Hok Hon].
    assert (Hsmall : n <= Z.sqrt pr \/ k <= Z.sqrt pr) by nia.
    destruct Hsmall as [Hsm | Hsm].
    + apply (Hno n); [| exact Hon |].
      * split; [| lia]. destruct (Z.eq_dec n 2) as [-> | ?]; [discriminate | lia].
      * rewrite Hk. apply Z.mod_mul. lia.
    + apply (Hno k); [| exact Hok |].
      * split; [| lia]. destruct (Z.eq_dec k 2) as [-> | ?]; [discriminate | lia].
      * rewrite Hk, Z.mul_comm. apply Z.mod_mul. lia.
  - intros Hp d Hd _ Hdiv.
    apply Z.mod_divide in Hdiv; [| lia].
    apply prime_alt in Hp. destruct Hp as [_ Hp]. apply (Hp d); [lia | exact Hdiv].
Qed.

(** [isPrime] returns, and decides primality. *)
Lemma isPrime_spec (m : data_model) (pr : Z) (fuel : nat) :
  in_ulong m pr -> sqrt_accurate m pr ->
  (Z.to_nat (Z.sqrt pr) + 2 <= fuel)%nat ->
  exists r : bool, isPrime m fuel pr = Some r /\ (r = true <-> prime pr).
Proof.
  intros Hin Hacc Hfuel. unfold isPrime.
  destruct (Z.eqb_spec pr 0) as [-> | H0]; cbn [orb].
  { exists false. split; [reflexivity |]. split; [discriminate |].
    intros [H _]. lia. }
  destruct (Z.eqb_spec pr 1) as [-> | H1].
  { exists false. split; [reflexivity |]. split; [discriminate |].
    intros [H _]. lia. }
  destruct (Z.eqb_spec pr 2) as [-> | H2]; cbn [orb].
  { exists true. split; [reflexivity |].
    split; [intros _; apply prime_alt, Z.prime_2 | reflexivity]. }
  destruct (Z.eqb_spec pr 3) as [-> | H3].
  { exists true. split; [reflexivity |].
    split; [intros _; apply prime_alt, Z.prime_3 | reflexivity]. }
  destruct Hin as [Hlo Hhi].
  destruct (Z.eqb_spec (pr mod 2) 0) as [Hev | Hod].
  { exists false. split; [reflexivity |]. split; [discriminate |].
    intros Hp. apply Z.mod_divide in Hev; [| lia].
    apply prime_alt in Hp. destruct Hp as [_ Hp]. exfalso. apply (Hp 2); [lia | exact Hev]. }
  assert (Hodd : Z.odd pr = true).
  { rewrite Zodd_mod. pose proof (Z.mod_pos_bound pr 2 ltac:(lia)).
    destruct (Z.eqb_spec (pr mod 2) 1); [reflexivity | lia]. }
  assert (H5 : 5 <= pr).
  { destruct (Z.eq_dec pr 4) as [-> | ?]; [discriminate | lia]. }
  pose proof (sqrt_below_modulus m pr (conj Hlo Hhi)) as Hsq.
  pose proof (Z.sqrt_spec pr Hlo) as Hs. cbv zeta in Hs.
  pose proof (Z.sqrt_nonneg pr) as Hs0.
  unfold sqrt_accurate in Hacc.
  destruct (isPrime_loop_spec m pr (sqrt_ulong m pr) (Z.to_nat (Z.sqrt pr)))
    with (cur := 3) (fuel := fuel) as (r & Hr & Hiff); try lia; [reflexivity |].
  exists r. split; [exact Hr |].
  rewrite Hiff. apply no_odd_divisor_prime; [exact H5 | exact Hodd |].
  split; [lia | nia].
Qed.

(** ** The modular inverse *)

Lemma inverse_zero (m : data_model) (fuel : nat) (g : ICG) :
  inverse m fuel g 0 = Some 0.
Proof. reflexivity. Qed.

Lemma inverse_one (m : data_model) (fuel : nat) (g : ICG) :
  inverse m fuel g 1 = Some 1.
Proof. reflexivity. Qed.

Lemma inverse_above (m : data_model) (fuel : nat) (g : ICG) (y : Z) :
  p g <= y -> y <> 1 -> inverse m fuel g y = Some 0.
Proof.
  intros Hy H1. unfold inverse.
  destruct (Z.eqb_spec y 0); [reflexivity |].
  destruct (Z.eqb_spec y 1); [contradiction |].
  destruct (Z.geb_spec y (p g)); [reflexivity | lia].
Qed.

(** The result is a residue, whether or not the modulus is prime. *)
Lemma inverse_range (m : data_model) (g : ICG) (y : Z) (fuel : nat) :
  in_ulong m (p g) -> p g < 2 ^ 63 -> 0 <= y < p g ->
  (Z.to_nat y + 2 <= fuel)%nat ->
  exists z : Z, inverse m fuel g y = Some z /\ 0 <= z < p g.
Proof.
  intros Hp H63 Hy Hfuel.
  destruct (Z.eq_dec y 0) as [-> | H0].
  { exists 0. split; [reflexivity | lia]. }
  destruct (Z.eq_dec y 1) as [-> | H1].
  { exists 1. split; [reflexivity | lia]. }
  destruct (inverse_bezout m g y fuel Hp H63 ltac:(lia) Hfuel) as (z & Hz & Hr & _).
  exists z. auto.
Qed.

(** For a prime modulus below [2^63] the result is the inverse of [y], and
    the only one among the residues. *)
Lemma inverse_correct (m : data_model) (g : ICG) (y : Z) (fuel : nat) :
  in_ulong m (p g) -> p g < 2 ^ 63 -> prime (p g) -> 1 <= y < p g ->
  (Z.to_nat y + 2 <= fuel)%nat ->
  exists z : Z,
    inverse m fuel g y = Some z /\ 1 <= z < p g /\ (y * z) mod p g = 1 /\
    forall z' : Z, 0 <= z' < p g -> (y * z') mod p g = 1 -> z' = z.
Proof.
  intros Hp H63 Hprime Hy Hfuel.
  assert (Hex : exists z : Z,
             inverse m fuel g y = Some z /\ 0 <= z < p g /\ (y * z) mod p g = 1).
  { destruct (Z.eq_dec y 1) as [-> | H1].
    - exists 1. split; [reflexivity |]. split; [lia |].
      apply Z.mod_small. lia.
    - destruct (inverse_bezout m g y fuel Hp H63 ltac:(lia) Hfuel) as (z & Hz & Hr & Hm).
      exists z. split; [exact Hz |]. split; [exact Hr |].
      assert (Hg : Z.gcd (p g) y = 1).
      { pose proof (Z.gcd_divide_l (p g) y) as Hdl.
        pose proof (Z.gcd_divide_r (p g) y) as Hdr.
        pose proof (Z.gcd_nonneg (p g) y) as Hd0.
        apply prime_alt in Hprime. destruct Hprime as [_ Hnd].
        destruct (Z.eq_dec (Z.gcd (p g) y) 0) as [E0 | E0].
        { apply Z.gcd_eq_0_l in E0. lia. }
        destruct (Z.eq_dec (Z.gcd (p g) y) 1) as [E1 | E1]; [exact E1 | exfalso].
        apply (Hnd (Z.gcd (p g) y)); [| exact Hdl].
        apply Z.divide_pos_le in Hdr; lia. }
      rewrite Hg in Hm. rewrite (Z.mod_small 1) in Hm by lia.
      rewrite Z.mul_comm. exact Hm. }
  destruct Hex as (z & Hz & Hr & Hm).
  exists z. split; [exact Hz |].
  assert (Hnz : z <> 0).
  { intros ->. rewrite Z.mul_0_r, Z.mod_0_l in Hm by lia. discriminate. }
  split; [lia |]. split; [exact Hm |].
  intros z' Hr' Hm'.
  pose proof (Z.div_mod (y * z) (p g) ltac:(lia)) as E. rewrite Hm in E.
  pose proof (Z.div_mod (y * z') (p g) ltac:(lia)) as E'. rewrite Hm' in E'.
  set (k := y * z / p g) in *. set (k' := y * z' / p g) in *.
  assert (Hmul : z - z' = p g * (z' * k - z * k')) by nia.
  assert (Ht : z' * k - z * k' = 0) by nia.
  rewrite Ht in Hmul. lia.
Qed.

Lemma checkGeneratorIsValid_fields (m : data_model) (fuel : nat) (g g' : ICG) :
  checkGeneratorIsValid m fuel g = Some g' ->
  g' = set_generatorIsValid g (generatorIsValid g') /\
  (generatorIsValid g' = true ->
   3 < p g /\ a g < p g /\ b g < p g /\ seed g < p g).
Proof.
  unfold checkGeneratorIsValid.
  destruct (Z.gtb_spec (p g) 3) as [H3 | H3].
  - destruct (isPrime m fuel (to_ulong m (p g))) as [pr |]; cbn [bind]; [| discriminate].
    intros [= <-]. split; [reflexivity |]. cbn [generatorIsValid set_generatorIsValid].
    intros Hv. rewrite !andb_true_iff, !Z.ltb_lt in Hv. lia.
  - intros [= <-]. split; [reflexivity |]. discriminate.
Qed.

Lemma checkGeneratorIsValid_wf (m : data_model) (fuel : nat) (g g' : ICG) :
  in_ulong m (p g) -> in_ulong m (a g) -> in_ulong m (b g) -> in_ulong m (seed g) ->
  curRand g = seed g ->
  checkGeneratorIsValid m fuel g = Some g' -> wf m g'.
Proof.
  intros Hp Ha Hb Hs Hc Hck.
  destruct (checkGeneratorIsValid_fields m fuel g g' Hck) as [Heq Hv].
  remember (generatorIsValid g') as v eqn:Ev. clear Ev. subst g'.
  unfold wf. cbn [generatorIsValid set_generatorIsValid p a b seed curRand].
  rewrite Hc. tauto.
Qed.

Lemma ICG_new_wf (m : data_model) (fuel : nat) (p' a' b' seed' : Z)
    (mn0 : double) (um0 : bool) (g : ICG) :
  in_ulong m p' -> in_ulong m a' -> in_ulong m b' -> in_ulong m seed' ->
  ICG_new m fuel p' a' b' seed' mn0 um0 = Some g -> wf m g.
Proof.
  intros Hp Ha Hb Hs. unfold ICG_new.
  apply checkGeneratorIsValid_wf; auto.
Qed.

Lemma reparametrize_wf (m : data_model) (fuel : nat) (g : ICG) (p' a' b' seed' : Z)
    (r : bool) (g' : ICG) :
  in_ulong m p' -> in_ulong m a' -> in_ulong m b' -> in_ulong m seed' ->
  reparametrize m fuel g p' a' b' seed' = Some (r, g') -> wf m g'.
Proof.
  intros Hp Ha Hb Hs. unfold reparametrize.
  destruct (checkGeneratorIsValid m fuel _) as [g1 |] eqn:Hck; cbn [bind]; [| discriminate].
  intros [= _ <-]. revert Hck. apply checkGeneratorIsValid_wf; auto.
Qed.

Lemma reseed_wf (m : data_model) (fuel : nat) (g : ICG) (s : Z) (r : bool) (g' : ICG) :
  wf m g -> in_ulong m s -> reseed m fuel g s = Some (r, g') -> wf m g'.
Proof.
  intros (Hp & Ha & Hb & _) Hs. unfold reseed.
  destruct (checkGeneratorIsValid m fuel _) as [g1 |] eqn:Hck; cbn [bind]; [| discriminate].
  intros [= _ <-]. revert Hck. apply checkGeneratorIsValid_wf; auto.
Qed.

(** ** The step *)

(** What [rand] does, branch by branch, with the arithmetic of the code:
    the sum [a * inv + b] is reduced modulo [2^64] before it is reduced
    modulo [p]. *)
Lemma rand_cases (m : data_model) (g : ICG) (fuel : nat) :
  wf m g -> p g < 2 ^ 63 -> (Z.to_nat (curRand g) + 2 <= fuel)%nat ->
  (generatorIsValid g = false -> rand m fuel g = Some (0, g)) /\
  (generatorIsValid g = true -> curRand g = 0 ->
   rand m fuel g = Some (b g, set_curRand g (b g))) /\
  (generatorIsValid g = true -> curRand g <> 0 ->
   exists inv : Z,
     inverse m fuel g (curRand g) = Some inv /\ 0 <= inv < p g /\
     let x := to_ullong (a g * inv + b g) mod p g in
     rand m fuel g = Some (x, set_curRand g x)) /\
  (generatorIsValid g = true ->
   exists (x : Z) (g' : ICG),
     rand m fuel g = Some (x, g') /\ 0 <= x < p g /\ curRand g' = x /\ wf m g').
Proof.
  intros Hwf H63 Hfuel.
  destruct Hwf as (Hp & Ha & Hb & Hs & Hc & Hv).
  assert (Hcase0 : generatorIsValid g = true -> curRand g = 0 ->
                   rand m fuel g = Some (b g, set_curRand g (b g))).
  { intros Hval H0. unfold rand. rewrite Hval, H0. cbn [negb Z.eqb].
    cbn [curRand set_curRand]. rewrite !(to_ulong_id m (b g) Hb). reflexivity. }
  assert (Hcase1 : generatorIsValid g = true -> curRand g <> 0 ->
     exists inv : Z,
       inverse m fuel g (curRand g) = Some inv /\ 0 <= inv < p g /\
       let x := to_ullong (a g * inv + b g) mod p g in
       rand m fuel g = Some (x, set_curRand g x)).
  { intros Hval Hn0. specialize (Hv Hval).
    destruct (inverse_range m g (curRand g) fuel Hp H63) as (inv & Hinv & Hr);
      [unfold in_ulong in Hc; lia | exact Hfuel |].
    exists inv. split; [exact Hinv |]. split; [exact Hr |]. cbv zeta.
    unfold rand. rewrite Hval. cbn [negb].
    destruct (Z.eqb_spec (curRand g) 0); [contradiction |].
    rewrite (to_ulong_id m (curRand g) Hc), Hinv. cbn [bind curRand set_curRand].
    assert (Hsum : to_ullong (to_ullong (a g * inv) + b g) = to_ullong (a g * inv + b g)).
    { unfold to_ullong. rewrite Zplus_mod_idemp_l. reflexivity. }
    rewrite Hsum.
    pose proof (Z.mod_pos_bound (to_ullong (a g * inv + b g)) (p g) ltac:(lia)) as Hx.
    set (x := to_ullong (a g * inv + b g) mod p g) in *.
    assert (Hin : in_ulong m x) by (unfold in_ulong in *; lia).
    rewrite !(to_ulong_id m x Hin).
    reflexivity. }
  split; [| split; [exact Hcase0 | split; [exact Hcase1 |]]].
  - intros Hval. unfold rand. rewrite Hval. reflexivity.
  - intros Hval. specialize (Hv Hval).
    destruct (Z.eq_dec (curRand g) 0) as [H0 | Hn0].
    + exists (b g), (set_curRand g (b g)). split; [auto |].
      unfold in_ulong in Hb. split; [lia |]. split; [reflexivity |].
      unfold wf. cbn [generatorIsValid p a b seed curRand set_curRand].
      unfold in_ulong in *. repeat split; try tauto; lia.
    + destruct (Hcase1 Hval Hn0) as (inv & _ & _ & Hrand). cbv zeta in Hrand.
      pose proof (Z.mod_pos_bound (to_ullong (a g * inv + b g)) (p g) ltac:(lia)) as Hx.
      eexists _, _. split; [exact Hrand |]. split; [exact Hx |]. split; [reflexivity |].
      unfold wf. cbn [generatorIsValid p a b seed curRand set_curRand].
      unfold in_ulong in *. repeat split; try tauto; lia.
Qed.

(** ** A primality certificate (Proth's theorem) *)

Lemma two_adic_decomposition (e : Z) :
  0 < e -> exists j t : Z, 0 <= j /\ 0 < t /\ Z.Odd t /\ e = 2 ^ j * t.
Proof.
  intros He. assert (H0 : 0 <= e) by lia. revert He.
  pattern e. apply Z_lt_induction; [| exact H0]. clear e H0.
  intros e IH He.
  destruct (Z.Even_or_Odd e) as [[c Hc] | Hodd].
  - destruct (IH c) as (j & t & Hj & Ht & Hot & Hct); [lia | lia |].
    exists (j + 1), t. repeat split; try lia; [exact Hot |].
    rewrite Z.pow_add_r by lia. change (2 ^ 1) with 2. lia.
  - exists 0, e. repeat split; try lia. exact Hodd.
Qed.

Section ProthOrder.

(** [x] is a square root of -1 of order [2^n] modulo [r]. *)
Variables (r x n : Z).
Hypothesis r_big : 2 < r.
Hypothesis n_pos : 1 <= n.
Hypothesis x_half : x ^ (2 ^ (n - 1)) mod r = (-1) mod r.

Lemma proth_full : x ^ (2 ^ n) mod r = 1.
Proof.
  replace (2 ^ n) with (2 ^ (n - 1) * 2).
  - pose proof (Z.pow_nonneg 2 (n - 1) ltac:(lia)).
    rewrite Z.pow_mul_r by lia.
    rewrite Zpower_mod, x_half, <- Zpower_mod by lia.
    change ((-1) ^ 2) with 1. apply Z.mod_small. lia.
  - replace n with (n - 1 + 1) at 2 by lia.
    rewrite Z.pow_add_r by lia. reflexivity.
Qed.

Lemma proth_order (e : Z) : 0 < e < 2 ^ n -> x ^ e mod r <> 1.
Proof.
  intros He H1.
  destruct (two_adic_decomposition e ltac:(lia)) as (j & t & Hj & Ht & Hodd & Ee).
  pose proof (Z.pow_pos_nonneg 2 j ltac:(lia) Hj) as H2j.
  assert (Hjn : j < n).
  { apply (Z.pow_lt_mono_r_iff 2); [lia | lia | nia]. }
  pose proof (Z.pow_nonneg 2 (n - 1 - j) ltac:(lia)) as H2m.
  pose proof (Z.pow_nonneg 2 (n - 1) ltac:(lia)) as H2n.
  assert (Hexp : (x ^ e) ^ (2 ^ (n - 1 - j)) = (x ^ (2 ^ (n - 1))) ^ t).
  { rewrite <- !Z.pow_mul_r by lia. f_equal.
    replace (n - 1) with (j + (n - 1 - j)) at 2 by lia.
    rewrite Z.pow_add_r by lia. rewrite Ee. ring. }
  assert (Hl : (x ^ e) ^ (2 ^ (n - 1 - j)) mod r = 1).
  { rewrite Zpower_mod, H1 by lia. rewrite Z.pow_1_l by lia. apply Z.mod_small. lia. }
  assert (Hr : (x ^ (2 ^ (n - 1))) ^ t mod r = r - 1).
  { rewrite Zpower_mod, x_half, <- Zpower_mod by lia.
    change ((-1) ^ t) with ((- (1)) ^ t).
    rewrite (Z.pow_opp_odd 1 t Hodd), Z.pow_1_l by lia.
    symmetry. apply (Z.mod_unique _ _ (-1)); lia. }
  rewrite Hexp in Hl. lia.
Qed.

Lemma proth_unit (i : Z) :
  0 <= i <= 2 ^ n -> (x ^ i * x ^ (2 ^ n - i)) mod r = 1.
Proof.
  intros Hi. rewrite <- Z.pow_add_r by lia.
  replace (i + (2 ^ n - i)) with (2 ^ n) by lia. exact proth_full.
Qed.

Lemma proth_nonzero (i : Z) : 0 <= i <= 2 ^ n -> x ^ i mod r <> 0.
Proof.
  intros Hi E. pose proof (proth_unit i Hi) as Hu.
  rewrite Zmult_mod, E, Z.mul_0_l, Z.mod_0_l in Hu by lia. discriminate.
Qed.

Lemma proth_injective (i j : Z) :
  0 <= i < j -> j < 2 ^ n -> x ^ i mod r <> x ^ j mod r.
Proof.
  intros Hij Hj E.
  apply (proth_order (j - i)); [lia |].
  pose proof (proth_unit i ltac:(lia)) as Hu.
  set (u := x ^ (2 ^ n - i)) in *.
  assert (Hsplit : x ^ j * u = x ^ (j - i) * (x ^ i * u)).
  { replace j with (j - i + i) at 1 by lia. rewrite Z.pow_add_r by lia. ring. }
  assert (H1 : (x ^ j * u) mod r = 1).
  { rewrite Zmult_mod, <- E, <- Zmult_mod. exact Hu. }
  rewrite Hsplit, Zmult_mod, Hu, Z.mul_1_r, Z.mod_mod in H1 by lia. exact H1.
Qed.

(** The [2^n] powers of [x] are distinct non-zero residues: there are at
    least [2^n] of those. *)
Lemma proth_bound : 2 ^ n <= r - 1.
Proof.
  pose proof (Z.pow_pos_nonneg 2 n ltac:(lia) ltac:(lia)) as H2n.
  set (powers := map (fun i : nat => x ^ Z.of_nat i mod r) (seq 0 (Z.to_nat (2 ^ n)))).
  set (residues := map Z.of_nat (seq 1 (Z.to_nat (r - 1)))).
  assert (Hnodup : NoDup powers).
  { apply NoDup_map_NoDup_ForallPairs; [| apply seq_NoDup].
    intros i j Hi Hj E. apply in_seq in Hi, Hj.
    destruct (Nat.lt_trichotomy i j) as [Hlt | [Heq | Hgt]]; [exfalso | exact Heq | exfalso].
    - apply (proth_injective (Z.of_nat i) (Z.of_nat j)); [lia | lia | exact E].
    - apply (proth_injective (Z.of_nat j) (Z.of_nat i)); [lia | lia | symmetry; exact E]. }
  assert (Hincl : incl powers residues).
  { intros z Hz. apply in_map_iff in Hz. destruct Hz as (i & <- & Hi).
    apply in_seq in Hi.
    pose proof (Z.mod_pos_bound (x ^ Z.of_nat i) r ltac:(lia)) as Hb.
    pose proof (proth_nonzero (Z.of_nat i) ltac:(lia)) as Hnz.
    apply in_map_iff. exists (Z.to_nat (x ^ Z.of_nat i mod r)).
    split; [lia |]. apply in_seq. lia. }
  pose proof (NoDup_incl_length Hnodup Hincl) as Hlen.
  unfold powers, residues in Hlen. rewrite !length_map, !length_seq in Hlen. lia.
Qed.

End ProthOrder.

(** Proth's theorem: [k * 2^n + 1] with [k < 2^n] is prime when some [a]
    has [a ^ ((N - 1) / 2) = -1] modulo [N]. *)
Lemma proth_prime (k n a : Z) :
  1 <= n -> 0 < k < 2 ^ n ->
  a ^ (k * 2 ^ (n - 1)) mod (k * 2 ^ n + 1) = k * 2 ^ n ->
  prime (k * 2 ^ n + 1).
Proof.
  intros Hn Hk Ha.
  pose proof (Z.pow_pos_nonneg 2 (n - 1) ltac:(lia) ltac:(lia)) as H2m.
  assert (E2 : 2 ^ n = 2 * 2 ^ (n - 1)).
  { replace n with (1 + (n - 1)) at 1 by lia. rewrite Z.pow_add_r by lia. reflexivity. }
  set (N := k * 2 ^ n + 1) in *.
  assert (HN : 1 < N) by (unfold N; nia).
  destruct (prime_dec N) as [Hp | Hnp]; [exact Hp | exfalso].
  destruct (not_prime_divide N HN Hnp) as (d & Hd & c & Hc).
  assert (Hr : exists r s : Z, 1 < r /\ r * r <= N /\ N = s * r).
  { destruct (Z_le_gt_dec d c) as [Hle | Hgt].
    - exists d, c. split; [lia |]. split; [nia | exact Hc].
    - exists c, d. split; [nia |]. split; [nia | lia]. }
  destruct Hr as (r & s & Hr1 & Hrr & HNr).
  assert (Hr2 : 2 < r).
  { destruct (Z.eq_dec r 2) as [-> | ?]; [| lia]. unfold N in HNr. lia. }
  pose proof (Z.div_mod (a ^ (k * 2 ^ (n - 1))) N ltac:(lia)) as Hdm.
  rewrite Ha in Hdm. fold N in Hdm.
  set (t := a ^ (k * 2 ^ (n - 1)) / N) in *.
  assert (Hhalf : (a ^ k) ^ (2 ^ (n - 1)) mod r = (-1) mod r).
  { rewrite <- Z.pow_mul_r by lia. rewrite Hdm.
    replace (N * t + k * 2 ^ n) with (-1 + (s * (t + 1)) * r).
    - apply Z.mod_add. lia.
    - replace (k * 2 ^ n) with (N - 1) by (unfold N; lia). rewrite HNr. ring. }
  pose proof (proth_bound r (a ^ k) n Hr2 Hn Hhalf) as Hb.
  unfold N in Hrr. nia.
Qed.

Lemma prime_above_2_63 : prime (2147483713 * 2 ^ 32 + 1).
Proof.
  apply (proth_prime 2147483713 32 3); [lia | lia |].
  rewrite <- Zpow_mod_correct by lia. vm_compute. reflexivity.
Qed.

(** ** The step and the inverse at machine width *)

(** Scenario 1 of the specification: [p = 7, a = 3, b = 2, seed = 1] yields
    5, 4, 1. *)
Example rands_scenario_1 (mn : double) (um : bool) :
  (g <- ICG_new Long32 10 7 3 2 1 mn um ;; rands Long32 10 3 g) = Some [5; 4; 1].
Proof. reflexivity. Qed.

(** Scenario 2: with [seed = 0] the first value is [b], and 0 comes back. *)
Example rands_scenario_2 (mn : double) (um : bool) :
  (g <- ICG_new Long32 10 7 3 2 0 mn um ;; rands Long32 10 3 g) = Some [2; 0; 2].
Proof. reflexivity. Qed.

(** C1 (code defect): on a valid generator with a non-zero current value,
    [rand] is to store and return [(a * inverse(current) + b) mod p].  Where
    [unsigned long] has 64 bits the generator [ICG (4294967311, 4294967310,
    0, 4294967310)] is valid, its modulus being the prime [2^32 + 15]; the
    inverse of its current value is 4294967310 and
    [(a * 4294967310 + b) mod p] is 1, but the sum wraps modulo [2^64] and
    [rand] stores and returns 4294967087. *)
Theorem rand_wraps_on_Long64 (mn : double) (um : bool) :
  let g := mkICG true 4294967311 4294967310 0 4294967310 4294967310 mn um in
  ICG_new Long64 (Z.to_nat 70000) 4294967311 4294967310 0 4294967310 mn um = Some g /\
  prime (p g) /\
  inverse Long64 100 g (curRand g) = Some 4294967310 /\
  (curRand g * 4294967310) mod p g = 1 /\
  (a g * 4294967310 + b g) mod p g = 1 /\
  rand Long64 100 g = Some (4294967087, set_curRand g 4294967087).
Proof.
  cbv zeta. cbn [p a b curRand].
  assert (Hprime : prime 4294967311).
  { destruct (isPrime_spec Long64 4294967311 (Z.to_nat 70000)) as (r & Hr & Hiff).
    - unfold in_ulong. simpl ulong_bits. lia.
    - unfold sqrt_accurate. vm_compute. split; discriminate.
    - replace (Z.sqrt 4294967311) with 65536 by (vm_compute; reflexivity). lia.
    - apply Hiff.
      assert (E : isPrime Long64 (Z.to_nat 70000) 4294967311 = Some true)
        by (vm_compute; reflexivity).
      congruence. }
  split; [vm_compute; reflexivity |].
  split; [exact Hprime |].
  repeat split; vm_compute; reflexivity.
Qed.

(** C7: on a valid generator with [p <= 2^32 - 1] and a non-zero current
    value, the sum [a * inverse(current) + b] is below [2^64]: the 64-bit
    unsigned arithmetic of [rand] does not wrap, and [rand] stores and
    returns the mathematical [(a * inverse(current) + b) mod p]. *)
Theorem rand_exact_below_2_32 (m : data_model) (g : ICG) (fuel : nat) :
  wf m g -> generatorIsValid g = true -> p g <= 2 ^ 32 - 1 -> curRand g <> 0 ->
  (Z.to_nat (curRand g) + 2 <= fuel)%nat ->
  exists inv : Z,
    inverse m fuel g (curRand g) = Some inv /\
    0 <= a g * inv + b g < 2 ^ 64 /\
    to_ullong (a g * inv) = a g * inv /\
    to_ullong (to_ullong (a g * inv) + b g) = a g * inv + b g /\
    rand m fuel g =
      Some ((a g * inv + b g) mod p g, set_curRand g ((a g * inv + b g) mod p g)).
Proof.
  intros Hwf Hval H32 Hn0 Hfuel.
  destruct (rand_cases m g fuel Hwf ltac:(lia) Hfuel) as (_ & _ & Hstep & _).
  destruct (Hstep Hval Hn0) as (inv & Hinv & Hr & Hrand). cbv zeta in Hrand.
  destruct Hwf as (Hp & Ha & Hb & _ & _ & Hv). specialize (Hv Hval).
  unfold in_ulong in Ha, Hb.
  assert (Hprod : 0 <= a g * inv <= (2 ^ 32 - 2) * (2 ^ 32 - 2)) by nia.
  assert (Hexact : to_ullong (a g * inv + b g) = a g * inv + b g)
    by (apply to_ullong_id; lia).
  exists inv. split; [exact Hinv |]. split; [lia |].
  split; [apply to_ullong_id; lia |].
  split; [rewrite (to_ullong_id (a g * inv)) by lia; exact Hexact |].
  rewrite Hexact in Hrand. exact Hrand.
Qed.

Lemma rand_exact_below_2_32_witness :
  exists inv : Z,
    inverse Long32 10 (mkICG true 7 3 2 1 5 0%float false) 5 = Some inv /\
    rand Long32 10 (mkICG true 7 3 2 1 5 0%float false) =
      Some ((3 * inv + 2) mod 7, mkICG true 7 3 2 1 ((3 * inv + 2) mod 7) 0%float false).
Proof.
  destruct (rand_exact_below_2_32 Long32 (mkICG true 7 3 2 1 5 0%float false) 10)
    as (inv & Hinv & _ & _ & _ & Hrand).
  - unfold wf, in_ulong; simpl; lia.
  - reflexivity.
  - simpl; lia.
  - simpl; lia.
  - simpl; lia.
  - exists inv. split; [exact Hinv | exact Hrand].
Defined.

(** C2 (code defect): for a prime [p >= 5] and [1 <= y < p], [inverse (y)]
    is to be the [z] of [[1, p)] with [y * z = 1] modulo [p].  Where
    [unsigned long] has 64 bits and [p] is [2147483713 * 2^32 + 1], a prime
    above [2^63] ([prime_above_2_63]), the inverse of [p - 1] is [p - 1],
    but the [long long] coefficient wraps in [Rn1 += p] and [inverse]
    returns 558345748481, whose product with [p - 1] is not 1 modulo [p].
    (For a modulus below [2^63] the result is right: [inverse_correct].) *)
Theorem inverse_wraps_on_Long64 (mn : double) (um : bool) :
  let P := 2147483713 * 2 ^ 32 + 1 in
  let g := mkICG true P 0 0 0 0 mn um in
  in_ulong Long64 P /\ 2 ^ 63 <= P /\ prime P /\
  ((P - 1) * (P - 1)) mod P = 1 /\
  inverse Long64 100 g (P - 1) = Some 558345748481 /\
  ((P - 1) * 558345748481) mod P <> 1.
Proof.
  cbv zeta. unfold in_ulong. simpl ulong_bits.
  split; [lia |]. split; [lia |].
  split; [exact prime_above_2_63 |].
  split; [vm_compute; reflexivity |].
  split; [vm_compute; reflexivity |].
  vm_compute. discriminate.
Qed.

(** ** The validity predicate *)

Lemma checkGeneratorIsValid_spec (m : data_model) (g : ICG) (fuel : nat) :
  in_ulong m (p g) -> sqrt_accurate m (p g) ->
  (Z.to_nat (Z.sqrt (p g)) + 2 <= fuel)%nat ->
  exists v : bool,
    checkGeneratorIsValid m fuel g = Some (set_generatorIsValid g v) /\
    (v = true <-> valid_parameters (p g) (a g) (b g) (seed g)).
Proof.
  intros Hp Hacc Hfuel. unfold checkGeneratorIsValid, valid_parameters.
  destruct (Z.gtb_spec (p g) 3) as [H3 | H3].
  - rewrite (to_ulong_id m (p g) Hp).
    destruct (isPrime_spec m (p g) fuel Hp Hacc Hfuel) as (r & Hr & Hiff).
    rewrite Hr. cbn [bind]. eexists. split; [reflexivity |].
    rewrite !andb_true_iff, !Z.ltb_lt, Hiff. tauto.
  - exists false. split; [reflexivity |]. split; [discriminate | lia].
Qed.




(** ** Reseeding and reparametrizing *)




(** [rand] changes [curRand] only. *)
Lemma rand_frame (m : data_model) (fuel : nat) (g g' : ICG) (x : Z) :
  rand m fuel g = Some (x, g') -> g' = set_curRand g (curRand g').
Proof.
  unfold rand. destruct (generatorIsValid g); cbn [negb].
  - destruct (curRand g =? 0).
    + intros [= _ <-]. reflexivity.
    + destruct (inverse m fuel g _); cbn [bind]; [| discriminate].
      intros [= _ <-]. reflexivity.
  - intros [= _ <-]. destruct g; reflexivity.
Qed.





(** The state that [reseed] and [reparametrize] leave. *)
Lemma reseed_fields (m : data_model) (fuel : nat) (g : ICG) (s : Z) (r : bool) (g' : ICG) :
  reseed m fuel g s = Some (r, g') ->
  g' = mkICG r (p g) (a g) (b g) s s (mullerNormal g) (useMullerNormal g).
Proof.
  unfold reseed.
  destruct (checkGeneratorIsValid m fuel _) as [g1 |] eqn:Hck; cbn [bind]; [| discriminate].
  intros [= <- <-].
  apply checkGeneratorIsValid_fields in Hck. destruct Hck as [Heq _].
  rewrite Heq at 1. reflexivity.
Qed.

Lemma reparametrize_fields (m : data_model) (fuel : nat) (g : ICG) (p' a' b' s : Z)
    (r : bool) (g' : ICG) :
  reparametrize m fuel g p' a' b' s = Some (r, g') ->
  g' = mkICG r p' a' b' s s (mullerNormal g) (useMullerNormal g).
Proof.
  unfold reparametrize.
  destruct (checkGeneratorIsValid m fuel _) as [g1 |] eqn:Hck; cbn [bind]; [| discriminate].
  intros [= <- <-].
  apply checkGeneratorIsValid_fields in Hck. destruct Hck as [Heq _].
  rewrite Heq at 1. reflexivity.
Qed.

(** C10: [reseed] and [reparametrize] do not roll back.  Whatever they
    return, the generator holds the new seed as [seed] and [curRand]
    ([reparametrize]: the new [p], [a], [b] as well) and the returned flag.
    When the new parameters fail the validity predicate the call returns
    false: the previous parameters are gone, the generator is invalid, and
    [rand] returns 0 on it. *)
Theorem reseed_reparametrize_no_rollback (m : data_model) (fuel : nat) (g : ICG) :
  (forall (s : Z) (r : bool) (g' : ICG),
     reseed m fuel g s = Some (r, g') ->
     g' = mkICG r (p g) (a g) (b g) s s (mullerNormal g) (useMullerNormal g) /\
     (r = false -> rand m fuel g' = Some (0, g'))) /\
  (forall (p' a' b' s : Z) (r : bool) (g' : ICG),
     reparametrize m fuel g p' a' b' s = Some (r, g') ->
     g' = mkICG r p' a' b' s s (mullerNormal g) (useMullerNormal g) /\
     (r = false -> rand m fuel g' = Some (0, g'))) /\
  (forall s : Z,
     in_ulong m (p g) -> sqrt_accurate m (p g) ->
     (Z.to_nat (Z.sqrt (p g)) + 2 <= fuel)%nat ->
     ~ valid_parameters (p g) (a g) (b g) s ->
     reseed m fuel g s =
       Some (false, mkICG false (p g) (a g) (b g) s s (mullerNormal g) (useMullerNormal g))) /\
  (forall p' a' b' s : Z,
     in_ulong m p' -> sqrt_accurate m p' ->
     (Z.to_nat (Z.sqrt p') + 2 <= fuel)%nat ->
     ~ valid_parameters p' a' b' s ->
     reparametrize m fuel g p' a' b' s =
       Some (false, mkICG false p' a' b' s s (mullerNormal g) (useMullerNormal g))).
Proof.
  split; [| split; [| split]].
  - intros s r g' H. apply reseed_fields in H. subst g'.
    split; [reflexivity |]. intros ->. reflexivity.
  - intros p' a' b' s r g' H. apply reparametrize_fields in H. subst g'.
    split; [reflexivity |]. intros ->. reflexivity.
  - intros s Hp Hacc Hfuel Hs. unfold reseed.
    destruct (checkGeneratorIsValid_spec m
                (set_curRand (set_seed (set_generatorIsValid g false) s)
                   (seed (set_seed (set_generatorIsValid g false) s))) fuel)
      as (v & Hv & Hiff); auto.
    rewrite Hv. cbn [bind].
    assert (Ev : v = false).
    { destruct v; [| reflexivity]. exfalso. apply Hs. apply Hiff. reflexivity. }
    rewrite Ev. reflexivity.
  - intros p' a' b' s Hp Hacc Hfuel Hs. unfold reparametrize.
    destruct (checkGeneratorIsValid_spec m
                (mkICG false p' a' b' s s (mullerNormal g) (useMullerNormal g)) fuel)
      as (v & Hv & Hiff); auto.
    rewrite Hv. cbn [bind].
    assert (Ev : v = false).
    { destruct v; [| reflexivity]. exfalso. apply Hs. apply Hiff. reflexivity. }
    rewrite Ev. reflexivity.
Qed.

Lemma reseed_reparametrize_no_rollback_witness :
  reseed Long32 10 (mkICG true 7 3 2 1 4 0%float false) 9 =
    Some (false, mkICG false 7 3 2 9 9 0%float false) /\
  reparametrize Long32 10 (mkICG true 7 3 2 1 4 0%float false) 9 3 2 1 =
    Some (false, mkICG false 9 3 2 1 1 0%float false).
Proof.
  destruct (reseed_reparametrize_no_rollback Long32 10 (mkICG true 7 3 2 1 4 0%float false))
    as (_ & _ & Hs & Hr).
  split.
  - apply (Hs 9).
    + unfold in_ulong; simpl; lia.
    + unfold sqrt_accurate. vm_compute. split; discriminate.
    + simpl. lia.
    + unfold valid_parameters. simpl. lia.
  - apply (Hr 9 3 2 1).
    + unfold in_ulong; simpl; lia.
    + unfold sqrt_accurate. vm_compute. split; discriminate.
    + simpl. lia.
    + intros (_ & Hprime & _).
      apply prime_alt in Hprime. destruct Hprime as [_ Hnd].
      apply (Hnd 3); [lia | exists 3; reflexivity].
Defined.

(** ** The spare of the Box-Muller transform *)




(** ** Comparison and arithmetic of doubles *)

Lemma SFcompare_antisym (x y : spec_float) :
  SFcompare y x = option_map CompOpp (SFcompare x y).
Proof.
  destruct x as [sx | sx | | sx mx ex], y as [sy | sy | | sy my ey];
    try reflexivity;
    try (destruct sx; reflexivity); try (destruct sy; reflexivity);
    try (destruct sx, sy; reflexivity).
  cbn [SFcompare option_map].
  change (PosDef.Pos.compare_cont Eq my mx) with (Pos.compare my mx).
  change (PosDef.Pos.compare_cont Eq mx my) with (Pos.compare mx my).
  rewrite (Z.compare_antisym ex ey), (Pos.compare_antisym mx my).
  destruct sx, sy; try reflexivity;
    destruct (ex ?= ey); try reflexivity;
    destruct (mx ?= my)%positive; reflexivity.
Qed.

Lemma SFcompare_none (x y : spec_float) :
  SFcompare x y = None -> x = S754_nan \/ y = S754_nan.
Proof.
  destruct x, y; cbn [SFcompare]; intros H; try discriminate H; auto.
Qed.

Lemma double_eqb_sym (A B : double) : (A =? B)%float = (B =? A)%float.
Proof.
  rewrite !eqb_spec. unfold SFeqb.
  rewrite (SFcompare_antisym (Prim2SF B) (Prim2SF A)).
  destruct (SFcompare (Prim2SF B) (Prim2SF A)) as [[] |]; reflexivity.
Qed.

Lemma double_ltb_asym (A B : double) :
  (B <? A)%float = true -> (A <? B)%float = false.
Proof.
  rewrite !ltb_spec. unfold SFltb.
  rewrite (SFcompare_antisym (Prim2SF B) (Prim2SF A)).
  destruct (SFcompare (Prim2SF B) (Prim2SF A)) as [[] |];
    cbn [option_map CompOpp]; congruence.
Qed.

(** Two doubles that are neither equal nor ordered: one of them is a NaN. *)
Lemma double_unordered (A B : double) :
  (B =? A)%float = false -> (B <? A)%float = false -> (A <? B)%float = false ->
  Prim2SF A = S754_nan \/ Prim2SF B = S754_nan.
Proof.
  rewrite eqb_spec, !ltb_spec. unfold SFeqb, SFltb.
  rewrite (SFcompare_antisym (Prim2SF B) (Prim2SF A)).
  destruct (SFcompare (Prim2SF B) (Prim2SF A)) as [[] |] eqn:E;
    cbn [option_map CompOpp]; try discriminate.
  intros _ _ _. apply SFcompare_none in E. tauto.
Qed.

(** A NaN endpoint makes the affine map a NaN whatever the order of the
    endpoints. *)
Lemma interval_nan (u A B : double) :
  Prim2SF A = S754_nan \/ Prim2SF B = S754_nan ->
  (u * (B - A) + A)%float = (u * (A - B) + B)%float.
Proof.
  intros H. apply Prim2SF_inj.
  rewrite !add_spec, !mul_spec, !sub_spec.
  assert (Hsub : forall x y : spec_float,
             x = S754_nan \/ y = S754_nan -> SF64sub x y = S754_nan).
  { intros x y [-> | ->]; [reflexivity | destruct x; reflexivity]. }
  assert (Hmul : forall x : spec_float, SF64mul x S754_nan = S754_nan).
  { intros x. destruct x; reflexivity. }
  assert (Hadd : forall x y : spec_float,
             x = S754_nan \/ y = S754_nan -> SF64add x y = S754_nan).
  { intros x y [-> | ->]; [reflexivity | destruct x; reflexivity]. }
  rewrite (Hsub (Prim2SF B) (Prim2SF A)) by tauto.
  rewrite (Hsub (Prim2SF A) (Prim2SF B)) by tauto.
  rewrite Hmul, !Hadd by auto. reflexivity.
Qed.

(** Two doubles that compare equal are the same double, or two zeros of
    opposite signs. *)
Lemma double_eqb_true (A B : double) :
  (B =? A)%float = true ->
  A = B \/
  exists s : bool, Prim2SF A = S754_zero s /\ Prim2SF B = S754_zero (negb s).
Proof.
  rewrite eqb_spec. unfold SFeqb. intros H.
  destruct (Prim2SF B) as [sb | sb | | sb mb eb] eqn:EB;
    destruct (Prim2SF A) as [sa | sa | | sa ma ea] eqn:EA;
    cbn [SFcompare] in H; try discriminate H;
    try (destruct sb; discriminate H); try (destruct sa; discriminate H).
  - destruct sa, sb.
    + left. apply Prim2SF_inj. congruence.
    + right. exists true. split; reflexivity.
    + right. exists false. split; reflexivity.
    + left. apply Prim2SF_inj. congruence.
  - left. apply Prim2SF_inj. rewrite EA, EB.
    destruct sa, sb; try discriminate H; reflexivity.
  - left. apply Prim2SF_inj. rewrite EA, EB.
    change (PosDef.Pos.compare_cont Eq mb ma) with (Pos.compare mb ma) in H.
    destruct sb, sa; try discriminate H;
      destruct (Z.compare_spec eb ea) as [He | He | He]; try discriminate H;
      destruct (Pos.compare_spec mb ma) as [Hm | Hm | Hm]; try discriminate H;
      subst; reflexivity.
Qed.

Lemma double_zeros_eqb (A B : double) (s : bool) :
  Prim2SF A = S754_zero s -> Prim2SF B = S754_zero (negb s) ->
  (B =? A)%float = true /\ A <> B.
Proof.
  intros EA EB. split.
  - rewrite eqb_spec, EA, EB. reflexivity.
  - intros E. rewrite E, EB in EA. destruct s; discriminate EA.
Qed.

(** C9 (counterexample): on the valid generator that the constructor builds
    from [(7, 3, 2, 1)], [randInterval (+0.0, -0.0)] returns [+0.0] and
    [randInterval (-0.0, +0.0)] returns [-0.0]: the endpoints compare equal,
    each call returns its own first argument, and the two results are not
    identical. *)
Lemma randInterval_signed_zeros_differ :
  let g := mkICG true 7 3 2 1 1 0%float false in
  ICG_new Long32 10 7 3 2 1 0%float false = Some g /\
  randInterval Long32 10 g 0%float (-0)%float = Some (0%float, g) /\
  randInterval Long32 10 g (-0)%float 0%float = Some ((-0)%float, g) /\
  randInterval Long32 10 g 0%float (-0)%float <>
    randInterval Long32 10 g (-0)%float 0%float.
Proof.
  cbv zeta. split; [vm_compute; reflexivity |].
  split; [reflexivity |]. split; [reflexivity |].
  change (randInterval Long32 10 (mkICG true 7 3 2 1 1 0%float false) 0%float (-0)%float)
    with (Some (0%float, mkICG true 7 3 2 1 1 0%float false)).
  change (randInterval Long32 10 (mkICG true 7 3 2 1 1 0%float false) (-0)%float 0%float)
    with (Some ((-0)%float, mkICG true 7 3 2 1 1 0%float false)).
  intros H.
  apply (f_equal (fun o : option (double * ICG) =>
                    match o with Some (x, _) => Prim2SF x | None => S754_nan end)) in H.
  vm_compute in H. discriminate H.
Qed.

(** C9 (amended): [randInterval (A, B)] and [randInterval (B, A)] return the
    same value in the same state unless [A] and [B] are zeros of opposite
    signs.  When the endpoints compare unequal (also when one is a NaN) the
    two calls are the same computation on the ordered endpoints.  When they
    compare equal, each call on a valid generator returns its own first
    argument and leaves the generator as it is; the two results compare
    equal, and they are the same double except for [+0.0] and [-0.0].
    [randInterval (A, A)] with [A] not a NaN returns [A] without a step of
    the generator. *)
Theorem randInterval_symmetric_unless_signed_zeros (m : data_model) (fuel : nat)
    (g : ICG) (A B : double) :
  ((B =? A)%float = false ->
   randInterval m fuel g A B = randInterval m fuel g B A) /\
  ((B =? A)%float = true -> generatorIsValid g = true ->
   randInterval m fuel g A B = Some (A, g) /\
   randInterval m fuel g B A = Some (B, g) /\
   (A =? B)%float = true /\
   (A = B \/
    exists s : bool, Prim2SF A = S754_zero s /\ Prim2SF B = S754_zero (negb s))) /\
  (generatorIsValid g = true ->
   (randInterval m fuel g A B = randInterval m fuel g B A <->
    ~ exists s : bool, Prim2SF A = S754_zero s /\ Prim2SF B = S754_zero (negb s))) /\
  ((A =? A)%float = true -> generatorIsValid g = true ->
   randInterval m fuel g A A = Some (A, g)).
Proof.
  pose proof (double_eqb_sym A B) as Hsym.
  assert (Hne : (B =? A)%float = false ->
                randInterval m fuel g A B = randInterval m fuel g B A).
  { intros Hne. unfold randInterval.
    rewrite Hne. rewrite <- Hsym in Hne. rewrite Hne.
    destruct (negb (generatorIsValid g)); [reflexivity |].
    destruct (B <? A)%float eqn:Hba.
    - rewrite (double_ltb_asym A B Hba). reflexivity.
    - destruct (A <? B)%float eqn:Hab; [reflexivity |].
      destruct (rand m fuel g) as [[r g'] |]; cbn [bind]; [| reflexivity].
      rewrite (interval_nan _ A B); [reflexivity |].
      apply double_unordered; [rewrite <- Hsym | |]; assumption. }
  assert (Heq : (B =? A)%float = true -> generatorIsValid g = true ->
                randInterval m fuel g A B = Some (A, g) /\
                randInterval m fuel g B A = Some (B, g)).
  { intros Heq Hval. unfold randInterval.
    rewrite Hval, Heq. rewrite <- Hsym in Heq. rewrite Heq. split; reflexivity. }
  split; [exact Hne |]. split; [| split].
  - intros Hba Hval. destruct (Heq Hba Hval) as (H1 & H2).
    split; [exact H1 |]. split; [exact H2 |].
    split; [rewrite Hsym; exact Hba |]. exact (double_eqb_true A B Hba).
  - intros Hval. split.
    + intros Hsame (s & EA & EB).
      destruct (double_zeros_eqb A B s EA EB) as (Hba & Hdiff).
      destruct (Heq Hba Hval) as (H1 & H2).
      rewrite H1, H2 in Hsame. apply Hdiff. congruence.
    + intros Hnz. destruct (B =? A)%float eqn:Hba; [| exact (Hne eq_refl)].
      destruct (double_eqb_true A B Hba) as [E | Hz]; [| contradiction].
      rewrite E. reflexivity.
  - intros Haa Hval. unfold randInterval. rewrite Hval, Haa. reflexivity.
Qed.

Lemma randInterval_symmetric_unless_signed_zeros_witness :
  randInterval Long32 10 (mkICG true 7 3 2 1 1 0%float false) 20%float 25%float =
  randInterval Long32 10 (mkICG true 7 3 2 1 1 0%float false) 25%float 20%float /\
  randInterval Long32 10 (mkICG true 7 3 2 1 1 0%float false) 20%float 20%float =
  Some (20%float, mkICG true 7 3 2 1 1 0%float false).
Proof.
  split.
  - apply (proj1 (randInterval_symmetric_unless_signed_zeros Long32 10
                    (mkICG true 7 3 2 1 1 0%float false) 20%float 25%float)).
    reflexivity.
  - apply (proj2 (proj2 (proj2 (randInterval_symmetric_unless_signed_zeros Long32 10
                    (mkICG true 7 3 2 1 1 0%float false) 20%float 20%float))));
      reflexivity.
Defined.

(** ** Samplers on an invalid generator, and the rejection loop *)

Lemma Z_of_double_zero_mul (x : double) : Z_of_double (0 * x)%float = 0.
Proof.
  unfold Z_of_double. rewrite mul_spec.
  change (Prim2SF 0%float) with (S754_zero false).
  destruct (Prim2SF x); reflexivity.
Qed.

(** The uniform samplers test the flag: on an invalid generator they return
    0 and leave the generator as it is. *)
Lemma invalid_uniform_samplers (m : data_model) (fuel : nat) (g : ICG) :
  generatorIsValid g = false ->
  rand m fuel g = Some (0, g) /\
  rand01 m fuel g = Some (0%float, g) /\
  (forall range : Z, rand_range m fuel g range = Some (0, g)) /\
  (forall A B : double, randInterval m fuel g A B = Some (0%float, g)).
Proof.
  intros Hval.
  assert (H01 : rand01 m fuel g = Some (0%float, g))
    by (unfold rand01; rewrite Hval; reflexivity).
  split; [unfold rand; rewrite Hval; reflexivity |].
  split; [exact H01 |]. split.
  - intros range. unfold rand_range. rewrite H01. cbn [bind].
    unfold ulong_of_double. rewrite Z_of_double_zero_mul.
    unfold to_ulong. rewrite Z.mod_0_l; [reflexivity |].
    pose proof (ulong_modulus_bounds m). lia.
  - intros A B. unfold randInterval. rewrite Hval. reflexivity.
Qed.

(** When a draw leaves the generator as it is and its pair is rejected, the
    loop is in the same state after every iteration: it never ends. *)
Lemma polar_loop_stuck (m : data_model) (fuel : nat) (g : ICG) (u : double) :
  randInterval m fuel g (-1)%float 1%float = Some (u, g) ->
  rejected u u = true ->
  forall n : nat, polar_loop m fuel n g = None.
Proof.
  intros Hdraw Hrej n. induction n as [| n IH]; [reflexivity |].
  cbn [polar_loop]. rewrite Hdraw. cbn [bind]. rewrite Hdraw. cbn [bind].
  unfold rejected in Hrej. rewrite Hrej. exact IH.
Qed.

Lemma invalid_polar_loop (m : data_model) (fuel : nat) (g : ICG) :
  generatorIsValid g = false -> forall n : nat, polar_loop m fuel n g = None.
Proof.
  intros Hval. apply (polar_loop_stuck m fuel g 0%float).
  - apply invalid_uniform_samplers. exact Hval.
  - vm_compute. reflexivity.
Qed.

(** C3 (code defect): on an invalid generator every sampler is to return 0
    and leave the state as it is.  [randStdNorm] and [randNormal] do not
    test the flag.  [ICG (9, 1, 1, 1)] is invalid; with no spare cached
    [randStdNorm] draws 0 twice, rejects the pair and draws again, for
    ever, and so does [randNormal]; with a spare cached [randStdNorm]
    returns the spare and clears [useMullerNormal], and [randNormal]
    returns [sqrt (ss) * spare + mu]. *)
Theorem invalid_randStdNorm_not_zero (log : double -> double) (m : data_model)
    (fuel : nat) (mn mu ss : double) :
  let g0 := mkICG false 9 1 1 1 1 mn false in
  let g1 := mkICG false 9 1 1 1 1 mn true in
  ICG_new m 10 9 1 1 1 mn false = Some g0 /\
  ICG_new m 10 9 1 1 1 mn true = Some g1 /\
  randStdNorm log m fuel g0 = None /\
  randNormal log m fuel g0 mu ss = None /\
  randStdNorm log m fuel g1 = Some (mn, g0) /\
  randNormal log m fuel g1 mu ss = Some ((sqrt ss * mn + mu)%float, g0).
Proof.
  cbv zeta.
  assert (Hstd : randStdNorm log m fuel (mkICG false 9 1 1 1 1 mn false) = None).
  { unfold randStdNorm. cbn [useMullerNormal].
    rewrite invalid_polar_loop by reflexivity. reflexivity. }
  split; [destruct m; vm_compute; reflexivity |].
  split; [destruct m; vm_compute; reflexivity |].
  split; [exact Hstd |].
  split; [unfold randNormal; rewrite Hstd; reflexivity |].
  split; reflexivity.
Qed.

(** C6 (code defect): every call is to return.  [randStdNorm] does not
    return on an invalid generator without a cached spare (every draw is 0
    and the pair is rejected), although the class documents that every
    generation method returns 0 there; nor does it return on the valid
    generator [ICG (5, 0, 0, 0)], whose every draw on [[-1, 1)] is -1. *)
Theorem randStdNorm_never_returns (log : double -> double) (m : data_model)
    (mn : double) :
  let g9 := mkICG false 9 1 1 1 1 mn false in
  let g5 := mkICG true 5 0 0 0 0 mn false in
  ICG_new m 10 9 1 1 1 mn false = Some g9 /\
  ICG_new m 10 5 0 0 0 mn false = Some g5 /\
  (forall fuel : nat, rand m fuel g5 = Some (0, g5)) /\
  (forall fuel : nat, randStdNorm log m fuel g9 = None) /\
  (forall fuel : nat, randStdNorm log m fuel g5 = None).
Proof.
  cbv zeta.
  split; [destruct m; vm_compute; reflexivity |].
  split; [destruct m; vm_compute; reflexivity |].
  split; [intros fuel; destruct m; reflexivity |].
  split; intros fuel; unfold randStdNorm; cbn [useMullerNormal].
  - rewrite invalid_polar_loop by reflexivity. reflexivity.
  - rewrite (polar_loop_stuck m fuel _ (-1)%float); [reflexivity | |].
    + destruct m; vm_compute; reflexivity.
    + vm_compute. reflexivity.
Qed.

(** ** Reachable generators are well formed *)

(** Whenever [rand] returns, it returns a well-formed generator, and on a
    valid generator a value of [[0, p)]. *)
Lemma rand_wf (m : data_model) (fuel : nat) (g g' : ICG) (x : Z) :
  wf m g -> rand m fuel g = Some (x, g') ->
  wf m g' /\ (generatorIsValid g = true -> 0 <= x < p g /\ curRand g' = x).
Proof.
  intros (Hp & Ha & Hb & Hs & Hc & Hv). unfold rand.
  destruct (generatorIsValid g) eqn:Hval; cbn [negb].
  - specialize (Hv eq_refl).
    destruct (curRand g =? 0).
    + cbn [curRand set_curRand]. rewrite !(to_ulong_id m (b g) Hb).
      intros [= <- <-]. unfold wf, in_ulong in *.
      cbn [generatorIsValid p a b seed curRand set_curRand]. rewrite Hval.
      repeat split; try tauto; lia.
    + destruct (inverse m fuel g (to_ulong m (curRand g))) as [inv |]; cbn [bind];
        [| discriminate].
      cbn [curRand set_curRand].
      set (t := to_ullong (to_ullong (a g * inv) + b g) mod p g).
      assert (Ht : 0 <= t < p g) by (apply Z.mod_pos_bound; lia).
      assert (Hin : in_ulong m t) by (unfold in_ulong in *; lia).
      rewrite !(to_ulong_id m t Hin).
      intros [= <- <-]. unfold wf, in_ulong in *.
      cbn [generatorIsValid p a b seed curRand set_curRand]. rewrite Hval.
      repeat split; try tauto; lia.
  - intros [= <- <-]. unfold wf. rewrite Hval. split; [tauto | discriminate].
Qed.

Lemma rand_preserves_wf (m : data_model) (fuel : nat) (g g' : ICG) (x : Z) :
  wf m g -> rand m fuel g = Some (x, g') -> wf m g'.
Proof. intros Hwf Hr. exact (proj1 (rand_wf m fuel g g' x Hwf Hr)). Qed.

Lemma set_muller_wf (m : data_model) (g : ICG) (x : double) (u : bool) :
  wf m g -> wf m (set_muller g x u).
Proof. intros H. exact H. Qed.

Lemma rand01_wf (m : data_model) (fuel : nat) (g g' : ICG) (u : double) :
  wf m g -> rand01 m fuel g = Some (u, g') -> wf m g'.
Proof.
  intros Hwf. unfold rand01. destruct (negb (generatorIsValid g)).
  - intros [= _ <-]. exact Hwf.
  - destruct (rand m fuel g) as [[x g1] |] eqn:Hr; cbn [bind]; [| discriminate].
    intros [= _ <-]. exact (proj1 (rand_wf m fuel g g1 x Hwf Hr)).
Qed.

Lemma rand_range_wf (m : data_model) (fuel : nat) (g g' : ICG) (range x : Z) :
  wf m g -> rand_range m fuel g range = Some (x, g') -> wf m g'.
Proof.
  intros Hwf. unfold rand_range.
  destruct (rand01 m fuel g) as [[u g1] |] eqn:Hr; cbn [bind]; [| discriminate].
  intros [= _ <-]. exact (rand01_wf m fuel g g1 u Hwf Hr).
Qed.

Lemma randInterval_wf (m : data_model) (fuel : nat) (g g' : ICG) (A B u : double) :
  wf m g -> randInterval m fuel g A B = Some (u, g') -> wf m g'.
Proof.
  intros Hwf. unfold randInterval. destruct (negb (generatorIsValid g)).
  - intros [= _ <-]. exact Hwf.
  - destruct (B =? A)%float.
    + intros [= _ <-]. exact Hwf.
    + destruct (B <? A)%float;
        (destruct (rand m fuel g) as [[x g1] |] eqn:Hr; cbn [bind]; [| discriminate];
         intros [= _ <-]; exact (proj1 (rand_wf m fuel g g1 x Hwf Hr))).
Qed.

Lemma polar_loop_wf (m : data_model) (fuel : nat) (n : nat) :
  forall (g g' : ICG) (u1 u2 q : double),
    wf m g -> polar_loop m fuel n g = Some (u1, u2, q, g') -> wf m g'.
Proof.
  induction n as [| n IH]; intros g g' u1 u2 q Hwf; cbn [polar_loop]; [discriminate |].
  destruct (randInterval m fuel g (-1)%float 1%float) as [[v1 g1] |] eqn:H1;
    cbn [bind]; [| discriminate].
  destruct (randInterval m fuel g1 (-1)%float 1%float) as [[v2 g2] |] eqn:H2;
    cbn [bind]; [| discriminate].
  pose proof (randInterval_wf m fuel g g1 _ _ v1 Hwf H1) as Hwf1.
  pose proof (randInterval_wf m fuel g1 g2 _ _ v2 Hwf1 H2) as Hwf2.
  destruct ((v1 * v1 + v2 * v2 <=? EPS) || (1 <? v1 * v1 + v2 * v2))%float.
  - apply IH. exact Hwf2.
  - intros [= _ _ _ <-]. exact Hwf2.
Qed.

Lemma randStdNorm_wf (log : double -> double) (m : data_model) (fuel : nat)
    (g g' : ICG) (z : double) :
  wf m g -> randStdNorm log m fuel g = Some (z, g') -> wf m g'.
Proof.
  intros Hwf. unfold randStdNorm. destruct (useMullerNormal g).
  - intros [= _ <-]. apply set_muller_wf. exact Hwf.
  - destruct (polar_loop m fuel fuel g) as [[[[u1 u2] q] g1] |] eqn:Hl; cbn [bind];
      [| discriminate].
    intros [= _ <-]. apply set_muller_wf.
    exact (polar_loop_wf m fuel fuel g g1 u1 u2 q Hwf Hl).
Qed.

Lemma randNormal_wf (log : double -> double) (m : data_model) (fuel : nat)
    (g g' : ICG) (mu ss z : double) :
  wf m g -> randNormal log m fuel g mu ss = Some (z, g') -> wf m g'.
Proof.
  intros Hwf. unfold randNormal.
  destruct (randStdNorm log m fuel g) as [[z1 g1] |] eqn:Hr; cbn [bind]; [| discriminate].
  intros [= _ <-]. exact (randStdNorm_wf log m fuel g g1 z1 Hwf Hr).
Qed.

(** X11: every generator that a program can reach through the constructor
    and the public member functions is well formed: its fields hold
    [unsigned long] values, and when its flag is set, [p > 3] and [a], [b],
    [seed] and [curRand] are below [p]. *)
Lemma reachable_wf (log : double -> double) (m : data_model) (g : ICG) :
  reachable log m g -> wf m g.
Proof.
  induction 1 as
    [ ? ? ? ? ? ? ? ? Hp Ha Hb Hs Hcall
    | ? ? ? ? ? ? ? ? _ IH Hp Ha Hb Hs Hcall
    | ? ? ? ? ? _ IH Hs Hcall
    | ? ? ? ? _ IH Hcall
    | ? ? ? ? ? _ IH Hcall
    | ? ? ? ? _ IH Hcall
    | ? ? ? ? ? ? _ IH Hcall
    | ? ? ? ? _ IH Hcall
    | ? ? ? ? ? ? _ IH Hcall ].
  - exact (ICG_new_wf _ _ _ _ _ _ _ _ _ Hp Ha Hb Hs Hcall).
  - exact (reparametrize_wf _ _ _ _ _ _ _ _ _ Hp Ha Hb Hs Hcall).
  - exact (reseed_wf _ _ _ _ _ _ IH Hs Hcall).
  - exact (rand_preserves_wf _ _ _ _ _ IH Hcall).
  - exact (rand_range_wf _ _ _ _ _ _ IH Hcall).
  - exact (rand01_wf _ _ _ _ _ IH Hcall).
  - exact (randInterval_wf _ _ _ _ _ _ _ IH Hcall).
  - exact (randStdNorm_wf _ _ _ _ _ _ IH Hcall).
  - exact (randNormal_wf _ _ _ _ _ _ _ _ IH Hcall).
Qed.

(** Scenario 3 of the specification: with [p = 9] the generator is invalid
    and [rand] returns 0 again and again. *)
Example rands_scenario_3 (mn : double) (um : bool) :
  (g <- ICG_new Long32 10 9 3 2 1 mn um ;; rands Long32 10 4 g) = Some [0; 0; 0; 0].
Proof. reflexivity. Qed.

(** Scenario 4: [p = 15485863, a = 213, b = 64, seed = 1]. *)
Example rands_scenario_4 (m : data_model) (mn : double) (um : bool) :
  (g <- ICG_new m (Z.to_nat 4000) 15485863 213 64 1 mn um ;; rands m 100 3 g)
  = Some [277; 11852061; 12019500].
Proof. destruct m; vm_compute; reflexivity. Qed.

(** * Further properties of the code *)

(** ** ICG::inverse *)

Lemma prime_7 : prime 7.
Proof.
  destruct (isPrime_spec Long32 7 10) as (r & Hr & Hiff).
  - unfold in_ulong; simpl; lia.
  - unfold sqrt_accurate. vm_compute. split; discriminate.
  - simpl. lia.
  - apply Hiff. vm_compute in Hr. congruence.
Qed.

(** X1: for a prime modulus below [2^63] (every modulus of a 32-bit
    [unsigned long]) and [1 <= y < p], [inverse] returns the inverse [z] of
    [y], the only residue with [y * z = 1] modulo [p], and the inverse of
    [z] is [y] again. *)
Theorem inverse_involution (m : data_model) (g : ICG) (y : Z) (fuel : nat) :
  in_ulong m (p g) -> p g < 2 ^ 63 -> prime (p g) -> 1 <= y < p g ->
  (Z.to_nat (p g) + 2 <= fuel)%nat ->
  exists z : Z,
    inverse m fuel g y = Some z /\ 1 <= z < p g /\ (y * z) mod p g = 1 /\
    (forall z' : Z, 0 <= z' < p g -> (y * z') mod p g = 1 -> z' = z) /\
    inverse m fuel g z = Some y.
Proof.
  intros Hp H63 Hprime Hy Hfuel.
  destruct (inverse_correct m g y fuel Hp H63 Hprime Hy ltac:(lia))
    as (z & Hz & Hr & Hm & Huniq).
  exists z. repeat split; try assumption; try lia.
  destruct (inverse_correct m g z fuel Hp H63 Hprime Hr ltac:(lia))
    as (w & Hw & _ & _ & Huniq').
  rewrite Hw. f_equal. symmetry. apply Huniq'; [lia |].
  rewrite Z.mul_comm. exact Hm.
Qed.

Lemma inverse_involution_witness :
  exists z : Z,
    inverse Long32 10 (mkICG true 7 3 2 1 1 0%float false) 5 = Some z /\
    (5 * z) mod 7 = 1 /\
    inverse Long32 10 (mkICG true 7 3 2 1 1 0%float false) z = Some 5.
Proof.
  destruct (inverse_involution Long32 (mkICG true 7 3 2 1 1 0%float false) 5 10)
    as (z & Hz & _ & Hm & _ & Hback).
  - unfold in_ulong; simpl; lia.
  - simpl; lia.
  - exact prime_7.
  - simpl; lia.
  - simpl; lia.
  - exists z. auto.
Defined.

(** X2: for any modulus [p < 2^63], prime or not, and [2 <= y < p],
    [inverse] returns a residue [z] with [z * y = gcd (p, y)] modulo [p];
    out of this range it returns 0 for [y = 0] and for [y >= p], and 1 for
    [y = 1]. *)
Theorem inverse_any_modulus (m : data_model) (g : ICG) (y : Z) (fuel : nat) :
  in_ulong m (p g) -> p g < 2 ^ 63 -> 0 <= y ->
  (Z.to_nat y + 2 <= fuel)%nat ->
  exists z : Z,
    inverse m fuel g y = Some z /\
    (y = 0 -> z = 0) /\
    (y = 1 -> z = 1) /\
    (p g <= y -> y <> 1 -> z = 0) /\
    (2 <= y < p g -> 0 <= z < p g /\ (z * y) mod p g = Z.gcd (p g) y).
Proof.
  intros Hp H63 Hy Hfuel.
  destruct (Z.eq_dec y 0) as [-> | H0].
  { exists 0. split; [reflexivity |]. repeat split; lia. }
  destruct (Z.eq_dec y 1) as [-> | H1].
  { exists 1. split; [reflexivity |]. repeat split; lia. }
  destruct (Z_le_gt_dec (p g) y) as [Hge | Hlt].
  { exists 0. split; [apply inverse_above; assumption |]. repeat split; lia. }
  destruct (inverse_bezout m g y fuel Hp H63 ltac:(lia) Hfuel) as (z & Hz & Hr & Hm).
  exists z. split; [exact Hz |]. repeat split; try lia.
  rewrite Hm. apply Z.mod_small.
  pose proof (Z.gcd_nonneg (p g) y).
  assert (Z.gcd (p g) y <= y).
  { apply Z.divide_pos_le; [lia | apply Z.gcd_divide_r]. }
  lia.
Qed.

Lemma inverse_any_modulus_witness :
  exists z : Z,
    inverse Long32 10 (mkICG false 9 1 1 1 1 0%float false) 6 = Some z /\
    (z * 6) mod 9 = 3.
Proof.
  destruct (inverse_any_modulus Long32 (mkICG false 9 1 1 1 1 0%float false) 6 10)
    as (z & Hz & _ & _ & _ & Hg).
  - unfold in_ulong; simpl; lia.
  - simpl; lia.
  - lia.
  - simpl; lia.
  - exists z. split; [exact Hz |]. apply Hg. simpl. lia.
Defined.

(** ** ICG::rand *)

(** X3: whenever [rand] returns, on any width and for any modulus, it has
    changed [curRand] only and left a well-formed generator; on a valid
    generator the value is a residue and is the new [curRand]; on an
    invalid one the value is 0 and the generator is as before. *)
Theorem rand_step_invariant (m : data_model) (fuel : nat) (g g' : ICG) (x : Z) :
  wf m g -> rand m fuel g = Some (x, g') ->
  g' = set_curRand g (curRand g') /\ wf m g' /\
  (generatorIsValid g = true -> 0 <= x < p g /\ curRand g' = x) /\
  (generatorIsValid g = false -> x = 0 /\ g' = g).
Proof.
  intros Hwf Hr.
  split; [exact (rand_frame m fuel g g' x Hr) |].
  destruct (rand_wf m fuel g g' x Hwf Hr) as [Hwf' Hval].
  split; [exact Hwf' |]. split; [exact Hval |].
  intros Hinv. unfold rand in Hr. rewrite Hinv in Hr. cbn [negb] in Hr.
  injection Hr as <- <-. split; reflexivity.
Qed.

Lemma rand_step_invariant_witness :
  mkICG true 7 3 2 1 5 0%float false =
    set_curRand (mkICG true 7 3 2 1 1 0%float false) 5 /\
  0 <= 5 < 7.
Proof.
  destruct (rand_step_invariant Long32 10 (mkICG true 7 3 2 1 1 0%float false)
              (mkICG true 7 3 2 1 5 0%float false) 5) as (Hfr & _ & Hv & _).
  - unfold wf, in_ulong; simpl; lia.
  - reflexivity.
  - split; [exact Hfr | apply Hv; reflexivity].
Defined.

(** *** Return of [inverse] for any modulus

    For a modulus of [2^63] or more the coefficients of the extended
    Euclidean loop wrap, but the remainders do not depend on them, and the
    normalising loop ends as well. *)

Lemma to_llong_range (z : Z) : - 2 ^ 63 <= to_llong z < 2 ^ 63.
Proof.
  unfold to_llong.
  pose proof (Z.mod_pos_bound (z + 2 ^ 63) (2 ^ 64) ltac:(lia)). lia.
Qed.

Lemma euclid_loop_returns (n : nat) :
  forall s : euclid,
    0 < rn1 s -> - 2 ^ 63 <= Rn1 s < 2 ^ 63 -> (Z.to_nat (rn1 s) <= n)%nat ->
    forall fuel : nat, (n + 2 <= fuel)%nat ->
    exists s' : euclid,
      euclid_loop fuel s = Some s' /\ - 2 ^ 63 <= Rn1 s' < 2 ^ 63.
Proof.
  induction n as [| n IH]; intros s Hpos HR Hn fuel Hfuel; [lia |].
  destruct fuel as [| fuel]; [lia |]. cbn [euclid_loop].
  destruct (Z.eqb_spec (rn2 s) 0) as [E0 | N0]; [exists s; auto |].
  pose proof (Z.mod_pos_bound (rn s) (rn1 s) Hpos) as Hmb.
  unfold euclid_body.
  destruct (Z.eqb_spec (rn s mod rn1 s) 0) as [Er | Nr].
  - destruct fuel as [| fuel]; [lia |]. cbn [euclid_loop rn2].
    rewrite Er. cbn [Z.eqb].
    eexists. split; [reflexivity |]. cbn [Rn1]. exact HR.
  - apply IH; cbn [rn1 Rn1]; [lia | apply to_llong_range | lia | lia].
Qed.

Lemma normalize_loop_returns (P : Z) (n : nat) :
  2 ^ 63 <= P < 2 ^ 64 ->
  forall R : Z,
    - 2 ^ 63 <= R < 2 ^ 63 -> (Z.to_nat (R + P - 2 ^ 63 + 1) <= n)%nat ->
    forall fuel : nat, (n + 2 <= fuel)%nat ->
    exists R' : Z, normalize_loop fuel P R = Some R'.
Proof.
  intros HP. induction n as [| n IH]; intros R HR Hn fuel Hfuel;
    (destruct fuel as [| fuel]; [lia |]); cbn [normalize_loop];
    (destruct (Z.ltb_spec R 0) as [Hneg | Hpos]; [| eexists; reflexivity]).
  - assert (H1 : to_ullong R = R + 2 ^ 64).
    { unfold to_ullong. symmetry. apply (Z.mod_unique _ _ (-1)); lia. }
    assert (H2 : to_ullong (to_ullong R + P) = R + P).
    { rewrite H1. unfold to_ullong. symmetry. apply (Z.mod_unique _ _ 1); lia. }
    rewrite H2, to_llong_id by lia.
    destruct fuel as [| fuel]; [lia |]. cbn [normalize_loop].
    destruct (Z.ltb_spec (R + P) 0); [lia | eexists; reflexivity].
  - assert (H1 : to_ullong R = R + 2 ^ 64).
    { unfold to_ullong. symmetry. apply (Z.mod_unique _ _ (-1)); lia. }
    assert (H2 : to_ullong (to_ullong R + P) = R + P).
    { rewrite H1. unfold to_ullong. symmetry. apply (Z.mod_unique _ _ 1); lia. }
    rewrite H2.
    destruct (Z.lt_ge_cases (R + P) (2 ^ 63)) as [Hlow | Hhigh].
    + rewrite to_llong_id by lia.
      destruct fuel as [| fuel]; [lia |]. cbn [normalize_loop].
      destruct (Z.ltb_spec (R + P) 0); [lia | eexists; reflexivity].
    + assert (H3 : to_llong (R + P) = R + P - 2 ^ 64).
      { unfold to_llong.
        rewrite <- (Z.mod_unique (R + P + 2 ^ 63) (2 ^ 64) 1 (R + P - 2 ^ 63)); lia. }
      rewrite H3. apply IH; lia.
Qed.

(** [inverse] returns for every argument, whatever the modulus. *)
Lemma inverse_returns (m : data_model) (g : ICG) (y : Z) (fuel : nat) :
  in_ulong m (p g) -> 0 <= y -> (Z.to_nat (p g) + 2 <= fuel)%nat ->
  exists z : Z, inverse m fuel g y = Some z.
Proof.
  intros Hp Hy Hfuel.
  destruct (Z.eq_dec y 0) as [-> | H0]; [exists 0; reflexivity |].
  destruct (Z.eq_dec y 1) as [-> | H1]; [exists 1; reflexivity |].
  destruct (Z.le_gt_cases (p g) y) as [Hge | Hlt].
  { exists 0. apply inverse_above; assumption. }
  destruct (Z.lt_ge_cases (p g) (2 ^ 63)) as [H63 | H63].
  { destruct (inverse_range m g y fuel Hp H63 ltac:(lia) ltac:(lia)) as (z & Hz & _).
    exists z. exact Hz. }
  pose proof (ulong_modulus_bounds m) as Hm.
  unfold inverse.
  destruct (Z.eqb_spec y 0); [contradiction |].
  destruct (Z.eqb_spec y 1); [contradiction |].
  destruct (Z.geb_spec y (p g)); [lia |].
  rewrite (to_ulong_id m (p g) Hp).
  destruct (euclid_loop_returns (Z.to_nat y) (mkEuclid (p g) y (p g mod y) 1 0))
    with (fuel := fuel) as (s & Hs & HR); cbn [rn1 Rn1]; try lia.
  rewrite Hs. cbn [bind].
  unfold in_ulong in Hp.
  destruct (normalize_loop_returns (p g) (Z.to_nat (p g)) ltac:(lia) (Rn1 s) HR)
    with (fuel := fuel) as (R & HRn); try lia.
  rewrite HRn. cbn [bind]. eexists. reflexivity.
Qed.

Lemma rand_a_zero (m : data_model) (g : ICG) (fuel : nat) :
  wf m g -> generatorIsValid g = true -> a g = 0 ->
  (Z.to_nat (p g) + 2 <= fuel)%nat ->
  rand m fuel g = Some (b g, set_curRand g (b g)).
Proof.
  intros Hwf Hval Ha Hfuel.
  destruct Hwf as (Hp & _ & Hb & _ & Hc & Hv). specialize (Hv Hval).
  pose proof (ulong_modulus_bounds m) as Hm.
  unfold rand. rewrite Hval. cbn [negb].
  destruct (Z.eqb_spec (curRand g) 0) as [E0 | N0].
  - cbn [curRand set_curRand]. rewrite !(to_ulong_id m (b g) Hb). reflexivity.
  - rewrite (to_ulong_id m (curRand g) Hc).
    destruct (inverse_returns m g (curRand g) fuel Hp) as (inv & Hinv);
      [unfold in_ulong in Hc; lia | exact Hfuel |].
    rewrite Hinv. cbn [bind]. rewrite Ha, Z.mul_0_l.
    unfold in_ulong in Hb.
    assert (E1 : to_ullong 0 = 0) by reflexivity.
    assert (E2 : to_ullong (0 + b g) = b g) by (apply to_ullong_id; lia).
    rewrite E1, E2, Z.mod_small by lia.
    cbn [curRand set_curRand]. rewrite !(to_ulong_id m (b g) Hb). reflexivity.
Qed.

(** X4: [checkGeneratorIsValid] accepts [a = 0]: with [p > 3] prime and
    [b], [seed] below [p] it sets the flag, so that the constructor called
    with [(p, 0, b, seed)] builds a valid generator.  A valid generator
    with [a = 0] is constant: on either width and for every modulus, every
    call of [rand] returns, and returns [b], whatever the current value. *)
Theorem rand_constant_when_a_zero (m : data_model) (fuel : nat) :
  (forall g : ICG,
     in_ulong m (p g) -> sqrt_accurate m (p g) ->
     (Z.to_nat (Z.sqrt (p g)) + 2 <= fuel)%nat ->
     a g = 0 -> 3 < p g -> prime (p g) -> b g < p g -> seed g < p g ->
     checkGeneratorIsValid m fuel g = Some (set_generatorIsValid g true)) /\
  (forall (p' b' seed' : Z) (mn : double) (um : bool),
     in_ulong m p' -> sqrt_accurate m p' ->
     (Z.to_nat (Z.sqrt p') + 2 <= fuel)%nat ->
     3 < p' -> prime p' -> b' < p' -> seed' < p' ->
     ICG_new m fuel p' 0 b' seed' mn um =
       Some (mkICG true p' 0 b' seed' seed' mn um)) /\
  (forall (g : ICG) (n : nat),
     wf m g -> generatorIsValid g = true -> a g = 0 ->
     (Z.to_nat (p g) + 2 <= fuel)%nat ->
     rands m fuel n g = Some (repeat (b g) n)).
Proof.
  assert (Hcheck : forall g : ICG,
     in_ulong m (p g) -> sqrt_accurate m (p g) ->
     (Z.to_nat (Z.sqrt (p g)) + 2 <= fuel)%nat ->
     a g = 0 -> 3 < p g -> prime (p g) -> b g < p g -> seed g < p g ->
     checkGeneratorIsValid m fuel g = Some (set_generatorIsValid g true)).
  { intros g Hp Hacc Hfuel Ha H3 Hprime Hb Hs.
    destruct (checkGeneratorIsValid_spec m g fuel Hp Hacc Hfuel) as (v & Hv & Hiff).
    assert (Ev : v = true).
    { apply Hiff. unfold valid_parameters. rewrite Ha.
      split; [exact H3 |]. split; [exact Hprime |]. lia. }
    rewrite Hv, Ev. reflexivity. }
  split; [exact Hcheck |]. split.
  - intros p' b' seed' mn um Hp Hacc Hfuel H3 Hprime Hb Hs. unfold ICG_new.
    rewrite (Hcheck (mkICG false p' 0 b' seed' seed' mn um)); try assumption; reflexivity.
  - intros g n. revert g.
    induction n as [| n IH]; intros g Hwf Hval Ha Hfuel; [reflexivity |].
    cbn [rands repeat]. rewrite (rand_a_zero m g fuel Hwf Hval Ha Hfuel).
    cbn [bind].
    assert (Hwf' : wf m (set_curRand g (b g))).
    { unfold wf in *. cbn [generatorIsValid p a b seed curRand set_curRand]. tauto. }
    rewrite (IH (set_curRand g (b g)) Hwf' Hval Ha Hfuel).
    reflexivity.
Qed.

Lemma rand_constant_when_a_zero_witness :
  ICG_new Long32 10 7 0 4 1 0%float false = Some (mkICG true 7 0 4 1 1 0%float false) /\
  rands Long32 10 3 (mkICG true 7 0 4 1 1 0%float false) = Some [4; 4; 4].
Proof.
  destruct (rand_constant_when_a_zero Long32 10) as (_ & Hnew & Hconst).
  split.
  - apply (Hnew 7 4 1 0%float false).
    + unfold in_ulong; simpl; lia.
    + unfold sqrt_accurate. vm_compute. split; discriminate.
    + simpl. lia.
    + lia.
    + exact prime_7.
    + lia.
    + lia.
  - apply (Hconst (mkICG true 7 0 4 1 1 0%float false) 3%nat).
    + unfold wf, in_ulong; simpl; lia.
    + reflexivity.
    + reflexivity.
    + simpl; lia.
Defined.

(** X5: on a valid generator with a modulus below [2^63], [n] calls of
    [rand] return, and return [n] residues. *)
Theorem rands_in_range (m : data_model) (fuel : nat) (n : nat) :
  forall g : ICG,
    wf m g -> p g < 2 ^ 63 -> generatorIsValid g = true ->
    (Z.to_nat (p g) + 2 <= fuel)%nat ->
    exists l : list Z,
      rands m fuel n g = Some l /\ length l = n /\
      Forall (fun x : Z => 0 <= x < p g) l.
Proof.
  induction n as [| n IH]; intros g Hwf H63 Hval Hfuel.
  - exists []. repeat split. constructor.
  - assert (Hv : curRand g < p g) by (apply Hwf; exact Hval).
    assert (Hc : in_ulong m (curRand g)) by (unfold wf in Hwf; tauto).
    unfold in_ulong in Hc.
    destruct (rand_cases m g fuel Hwf H63 ltac:(lia)) as (_ & _ & _ & Hret).
    destruct (Hret Hval) as (x & g' & Hrand & Hx & _ & Hwf').
    pose proof (rand_frame m fuel g g' x Hrand) as Hfr.
    assert (Ep : p g' = p g) by (rewrite Hfr; reflexivity).
    assert (Ev : generatorIsValid g' = true) by (rewrite Hfr; exact Hval).
    destruct (IH g' Hwf' ltac:(lia) Ev ltac:(lia)) as (l & Hl & Hlen & Hall).
    cbn [rands]. rewrite Hrand. cbn [bind]. rewrite Hl. cbn [bind].
    exists (x :: l). split; [reflexivity |]. split; [cbn [length]; lia |].
    constructor; [exact Hx |]. rewrite <- Ep. exact Hall.
Qed.

Lemma rands_in_range_witness :
  exists l : list Z,
    rands Long32 10 5 (mkICG true 7 3 2 1 1 0%float false) = Some l /\
    length l = 5%nat /\ Forall (fun x : Z => 0 <= x < 7) l.
Proof.
  apply (rands_in_range Long32 10 5 (mkICG true 7 3 2 1 1 0%float false)).
  - unfold wf, in_ulong; simpl; lia.
  - simpl; lia.
  - reflexivity.
  - simpl; lia.
Defined.

(** ** The samplers on an invalid generator *)

(** X6: on an invalid generator [rand], [rand (range)], [rand01] and
    [randInterval] return 0 for every argument and leave the generator as
    it is, so that any number of calls of [rand] returns zeros only. *)
Theorem invalid_generator_yields_zero (m : data_model) (fuel : nat) (g : ICG) :
  generatorIsValid g = false ->
  rand m fuel g = Some (0, g) /\
  (forall n : nat, rands m fuel n g = Some (repeat 0 n)) /\
  rand01 m fuel g = Some (0%float, g) /\
  (forall range : Z, rand_range m fuel g range = Some (0, g)) /\
  (forall A B : double, randInterval m fuel g A B = Some (0%float, g)).
Proof.
  intros Hval.
  destruct (invalid_uniform_samplers m fuel g Hval) as (Hr & H01 & Hrange & Hint).
  split; [exact Hr |]. split; [| auto].
  intros n. induction n as [| n IH]; [reflexivity |].
  cbn [rands repeat]. rewrite Hr. cbn [bind]. rewrite IH. reflexivity.
Qed.

Lemma invalid_generator_yields_zero_witness :
  rand Long32 10 (mkICG false 9 1 1 1 1 0%float false) =
    Some (0, mkICG false 9 1 1 1 1 0%float false) /\
  rands Long32 10 3 (mkICG false 9 1 1 1 1 0%float false) = Some [0; 0; 0] /\
  randInterval Long32 10 (mkICG false 9 1 1 1 1 0%float false) 20%float 25%float =
    Some (0%float, mkICG false 9 1 1 1 1 0%float false).
Proof.
  destruct (invalid_generator_yields_zero Long32 10 (mkICG false 9 1 1 1 1 0%float false))
    as (Hr & Hn & _ & _ & Hint).
  - reflexivity.
  - split; [exact Hr |]. split; [apply (Hn 3%nat) | apply Hint].
Defined.

(** ** ICG::rand (range), rand01, randInterval *)

Lemma Z_of_double_mul_zero (u : double) : Z_of_double (u * double_of_Z 0)%float = 0.
Proof.
  unfold Z_of_double. rewrite mul_spec.
  replace (Prim2SF (double_of_Z 0)) with (S754_zero false) by (vm_compute; reflexivity).
  destruct (Prim2SF u); reflexivity.
Qed.

(** X7: [rand (0)] returns 0, and takes a step of the generator as [rand]
    does. *)
Theorem rand_range_zero (m : data_model) (fuel : nat) (g : ICG) :
  rand_range m fuel g 0 =
    option_map (fun xg : Z * ICG => (0, snd xg)) (rand m fuel g).
Proof.
  assert (Hz : forall u : double, ulong_of_double m (u * double_of_Z 0)%float = 0).
  { intros u. unfold ulong_of_double. rewrite Z_of_double_mul_zero.
    unfold to_ulong. apply Z.mod_0_l. pose proof (ulong_modulus_bounds m). lia. }
  unfold rand_range, rand01.
  destruct (generatorIsValid g) eqn:Hval; cbn [negb].
  - destruct (rand m fuel g) as [[r g'] |]; cbn [bind option_map snd]; [| reflexivity].
    rewrite Hz. reflexivity.
  - cbn [bind]. rewrite Hz. unfold rand. rewrite Hval. reflexivity.
Qed.

(** X8: each uniform sampler takes exactly the step of the generator that
    [rand] takes: [rand01], [rand (range)] and, for endpoints that differ,
    [randInterval] leave the generator that [rand] leaves (and do not
    return when [rand] does not); [randInterval] with endpoints that
    compare equal takes no step, and returns its first argument on a valid
    generator and 0 on an invalid one. *)
Theorem uniform_samplers_take_one_step (m : data_model) (fuel : nat) (g : ICG) :
  option_map snd (rand01 m fuel g) = option_map snd (rand m fuel g) /\
  (forall range : Z,
     option_map snd (rand_range m fuel g range) = option_map snd (rand m fuel g)) /\
  (forall A B : double,
     (B =? A)%float = false ->
     option_map snd (randInterval m fuel g A B) = option_map snd (rand m fuel g)) /\
  (forall A B : double,
     (B =? A)%float = true ->
     randInterval m fuel g A B =
       Some (if generatorIsValid g then A else 0%float, g)).
Proof.
  assert (H01 : option_map snd (rand01 m fuel g) = option_map snd (rand m fuel g)).
  { unfold rand01. destruct (generatorIsValid g) eqn:Hval; cbn [negb].
    - destruct (rand m fuel g) as [[r g'] |]; reflexivity.
    - unfold rand. rewrite Hval. reflexivity. }
  split; [exact H01 |]. split; [| split].
  - intros range. rewrite <- H01. unfold rand_range.
    destruct (rand01 m fuel g) as [[u g'] |]; reflexivity.
  - intros A B Hne. unfold randInterval. rewrite Hne.
    destruct (generatorIsValid g) eqn:Hval; cbn [negb].
    + destruct (B <? A)%float; destruct (rand m fuel g) as [[r g'] |]; reflexivity.
    + unfold rand. rewrite Hval. reflexivity.
  - intros A B Heq. unfold randInterval. rewrite Heq.
    destruct (generatorIsValid g); reflexivity.
Qed.

Lemma uniform_samplers_take_one_step_witness :
  option_map snd
    (randInterval Long32 10 (mkICG true 7 3 2 1 1 0%float false) 20%float 25%float) =
  option_map snd (rand Long32 10 (mkICG true 7 3 2 1 1 0%float false)) /\
  randInterval Long32 10 (mkICG true 7 3 2 1 1 0%float false) 20%float 20%float =
    Some (20%float, mkICG true 7 3 2 1 1 0%float false).
Proof.
  destruct (uniform_samplers_take_one_step Long32 10 (mkICG true 7 3 2 1 1 0%float false))
    as (_ & _ & Hne & Heq).
  split.
  - apply (Hne 20%float 25%float). reflexivity.
  - apply (Heq 20%float 20%float). reflexivity.
Defined.

(** For a prime modulus up to [2^32 - 1] the value of [rand] is the exact
    [(a * z + b) mod p], [z] the inverse of the current value. *)
Lemma rand_value_small_modulus (m : data_model) (g : ICG) (fuel : nat) :
  wf m g -> generatorIsValid g = true -> prime (p g) -> p g <= 2 ^ 32 - 1 ->
  curRand g <> 0 -> (Z.to_nat (curRand g) + 2 <= fuel)%nat ->
  exists z : Z,
    1 <= z < p g /\ (curRand g * z) mod p g = 1 /\
    rand m fuel g = Some ((a g * z + b g) mod p g,
                          set_curRand g ((a g * z + b g) mod p g)).
Proof.
  intros Hwf Hval Hprime H32 Hn0 Hfuel.
  destruct (rand_cases m g fuel Hwf ltac:(lia) Hfuel) as (_ & _ & Hstep & _).
  destruct (Hstep Hval Hn0) as (inv & Hinv & _ & Hrand). cbv zeta in Hrand.
  destruct Hwf as (Hp & Ha & Hb & _ & Hc & Hv). specialize (Hv Hval).
  unfold in_ulong in Ha, Hb, Hc.
  destruct (inverse_correct m g (curRand g) fuel Hp ltac:(lia) Hprime ltac:(lia) Hfuel)
    as (z & Hz & Hr & Hm & _).
  assert (inv = z) by congruence. subst inv.
  exists z. split; [exact Hr |]. split; [exact Hm |].
  assert (Hprod : 0 <= a g * z <= (2 ^ 32 - 2) * (2 ^ 32 - 2)) by nia.
  rewrite (to_ullong_id (a g * z + b g)) in Hrand by lia. exact Hrand.
Qed.

Lemma prime_divides_residue_product (P x y : Z) :
  prime P -> 0 < x < P -> 0 < y < P -> (x * y) mod P <> 0.
Proof.
  intros HP Hx Hy H0. apply Z.mod_divide in H0; [| lia].
  apply prime_alt in HP.
  destruct (proj1 (Z.divide_prime_mul x y P HP) H0) as [Hd | Hd];
    apply Z.divide_pos_le in Hd; lia.
Qed.

(** X9: for a prime modulus up to [2^32 - 1] and [a <> 0] the step is
    injective: two valid generators with the same [p], [a] and [b] and
    different current values return different values from [rand]. *)
Theorem rand_injective (m : data_model) (fuel : nat) (g1 g2 : ICG) :
  wf m g1 -> wf m g2 ->
  generatorIsValid g1 = true -> generatorIsValid g2 = true ->
  p g2 = p g1 -> a g2 = a g1 -> b g2 = b g1 ->
  prime (p g1) -> p g1 <= 2 ^ 32 - 1 -> a g1 <> 0 ->
  (Z.to_nat (p g1) + 2 <= fuel)%nat ->
  curRand g1 <> curRand g2 ->
  exists x1 x2 : Z,
    rand m fuel g1 = Some (x1, set_curRand g1 x1) /\
    rand m fuel g2 = Some (x2, set_curRand g2 x2) /\ x1 <> x2.
Proof.
  intros Hwf1 Hwf2 Hv1 Hv2 Ep Ea Eb Hprime H32 Ha0 Hfuel Hne.
  assert (Hr1 : 3 < p g1 /\ a g1 < p g1 /\ b g1 < p g1 /\ curRand g1 < p g1)
    by (pose proof (proj2 (proj2 (proj2 (proj2 (proj2 Hwf1)))) Hv1); tauto).
  assert (Hr2 : curRand g2 < p g1)
    by (pose proof (proj2 (proj2 (proj2 (proj2 (proj2 Hwf2)))) Hv2); lia).
  assert (Hin : in_ulong m (a g1) /\ in_ulong m (b g1) /\
                in_ulong m (curRand g1) /\ in_ulong m (curRand g2))
    by (unfold wf in Hwf1, Hwf2; tauto).
  unfold in_ulong in Hin.
  assert (Hzero : forall g : ICG,
             wf m g -> generatorIsValid g = true -> p g = p g1 -> b g = b g1 ->
             curRand g = 0 -> rand m fuel g = Some (b g1, set_curRand g (b g1))).
  { intros g Hwf Hv Egp Egb E0.
    destruct (rand_cases m g fuel Hwf ltac:(lia) ltac:(lia)) as (_ & Hz & _).
    rewrite (Hz Hv E0), Egb. reflexivity. }
  assert (Hstep : forall g : ICG,
             wf m g -> generatorIsValid g = true -> p g = p g1 -> a g = a g1 ->
             b g = b g1 -> curRand g <> 0 -> curRand g < p g1 -> 0 <= curRand g ->
             exists z : Z,
               1 <= z < p g1 /\ (curRand g * z) mod p g1 = 1 /\
               rand m fuel g = Some ((a g1 * z + b g1) mod p g1,
                                     set_curRand g ((a g1 * z + b g1) mod p g1))).
  { intros g Hwf Hv Egp Ega Egb Hn0 Hlt H0.
    destruct (rand_value_small_modulus m g fuel Hwf Hv) as (z & Hz & Hm & Hrand);
      try rewrite Egp; auto; try lia.
    rewrite Egp, Ega, Egb in *. exists z. auto. }
  assert (Hshift : forall z : Z,
             1 <= z < p g1 -> (a g1 * z + b g1) mod p g1 <> b g1).
  { intros z Hz E.
    apply (prime_divides_residue_product (p g1) (a g1) z Hprime); [lia | lia |].
    pose proof (Z.div_mod (a g1 * z + b g1) (p g1) ltac:(lia)) as Hdm.
    rewrite E in Hdm.
    apply Z.mod_divide; [lia |]. exists ((a g1 * z + b g1) / p g1). lia. }
  destruct (Z.eq_dec (curRand g1) 0) as [E1 | N1];
    destruct (Z.eq_dec (curRand g2) 0) as [E2 | N2].
  - congruence.
  - destruct (Hstep g2 Hwf2 Hv2 Ep Ea Eb N2) as (z & Hz & _ & Hrand); try lia.
    eexists _, _. split; [exact (Hzero g1 Hwf1 Hv1 eq_refl eq_refl E1) |].
    split; [exact Hrand |]. intros E. symmetry in E. exact (Hshift z Hz E).
  - destruct (Hstep g1 Hwf1 Hv1 eq_refl eq_refl eq_refl N1) as (z & Hz & _ & Hrand);
      try lia.
    eexists _, _. split; [exact Hrand |].
    split; [exact (Hzero g2 Hwf2 Hv2 Ep Eb E2) |]. exact (Hshift z Hz).
  - destruct (Hstep g1 Hwf1 Hv1 eq_refl eq_refl eq_refl N1) as (z1 & Hz1 & Hm1 & Hrand1);
      try lia.
    destruct (Hstep g2 Hwf2 Hv2 Ep Ea Eb N2) as (z2 & Hz2 & Hm2 & Hrand2); try lia.
    eexists _, _. split; [exact Hrand1 |]. split; [exact Hrand2 |].
    intros E. apply Hne.
    assert (Ez : z1 = z2).
    { pose proof (Z.div_mod (a g1 * z1 + b g1) (p g1) ltac:(lia)) as D1.
      pose proof (Z.div_mod (a g1 * z2 + b g1) (p g1) ltac:(lia)) as D2.
      rewrite E in D1.
      set (k1 := (a g1 * z1 + b g1) / p g1) in *.
      set (k2 := (a g1 * z2 + b g1) / p g1) in *.
      destruct (Z.eq_dec z1 z2) as [Ez | Nz]; [exact Ez | exfalso].
      destruct (Z_lt_le_dec z1 z2) as [Hlt | Hge].
      - apply (prime_divides_residue_product (p g1) (a g1) (z2 - z1) Hprime);
          [lia | lia |].
        apply Z.mod_divide; [lia |]. exists (k2 - k1). lia.
      - apply (prime_divides_residue_product (p g1) (a g1) (z1 - z2) Hprime);
          [lia | lia |].
        apply Z.mod_divide; [lia |]. exists (k1 - k2). lia. }
    subst z2.
    pose proof (proj1 (proj2 (proj2 (proj2 Hin)))) as Hc1.
    destruct (inverse_correct m g1 z1 (Z.to_nat z1 + 2)) as (w & _ & _ & _ & Huniq);
      try lia; try assumption.
    { unfold wf in Hwf1. tauto. }
    assert (C1 : curRand g1 = w)
      by (apply Huniq; [lia | rewrite Z.mul_comm; exact Hm1]).
    assert (C2 : curRand g2 = w)
      by (apply Huniq; [lia | rewrite Z.mul_comm; exact Hm2]).
    congruence.
Qed.

Lemma rand_injective_witness :
  exists x1 x2 : Z,
    rand Long32 10 (mkICG true 7 3 2 1 1 0%float false) =
      Some (x1, set_curRand (mkICG true 7 3 2 1 1 0%float false) x1) /\
    rand Long32 10 (mkICG true 7 3 2 1 5 0%float false) =
      Some (x2, set_curRand (mkICG true 7 3 2 1 5 0%float false) x2) /\
    x1 <> x2.
Proof.
  apply (rand_injective Long32 10 (mkICG true 7 3 2 1 1 0%float false)
           (mkICG true 7 3 2 1 5 0%float false));
    try reflexivity; try exact prime_7;
    try (unfold wf, in_ulong; simpl; lia); simpl; lia.
Defined.

(** ** ICG::randStdNorm *)

(** The pair that leaves the do-while loop passed its test. *)
Lemma polar_loop_accepts (m : data_model) (fuel : nat) (n : nat) :
  forall (g g' : ICG) (u1 u2 q : double),
    polar_loop m fuel n g = Some (u1, u2, q, g') ->
    q = (u1 * u1 + u2 * u2)%float /\ rejected u1 u2 = false.
Proof.
  induction n as [| n IH]; intros g g' u1 u2 q; cbn [polar_loop]; [discriminate |].
  destruct (randInterval m fuel g (-1)%float 1%float) as [[v1 g1] |];
    cbn [bind]; [| discriminate].
  destruct (randInterval m fuel g1 (-1)%float 1%float) as [[v2 g2] |];
    cbn [bind]; [| discriminate].
  destruct ((v1 * v1 + v2 * v2 <=? EPS) || (1 <? v1 * v1 + v2 * v2))%float eqn:Hrej.
  - apply IH.
  - intros [= <- <- <- <-]. split; [reflexivity | exact Hrej].
Qed.

(** X10: a call of [randStdNorm] that samples returns [r * u1] and caches
    [r * u2] for a pair [(u1, u2)] that passed the test ([q] is neither at
    most [EPS] nor above 1), with [r = sqrt (-2 * log (q) / q)]; the next
    call returns the cached [r * u2] without a step of the generator and
    empties the cache. *)
Theorem randStdNorm_caches_spare (log : double -> double) (m : data_model)
    (fuel : nat) (g g1 : ICG) (z : double) :
  useMullerNormal g = false ->
  randStdNorm log m fuel g = Some (z, g1) ->
  exists (u1 u2 : double) (g' : ICG),
    let q := (u1 * u1 + u2 * u2)%float in
    let r := sqrt (-2 * log q / q)%float in
    polar_loop m fuel fuel g = Some (u1, u2, q, g') /\
    (q <=? EPS)%float = false /\ (1 <? q)%float = false /\
    z = (r * u1)%float /\ g1 = set_muller g' (r * u2)%float true /\
    forall fuel' : nat,
      randStdNorm log m fuel' g1 =
        Some ((r * u2)%float, set_muller g' (r * u2)%float false).
Proof.
  intros Hu. unfold randStdNorm at 1. rewrite Hu.
  destruct (polar_loop m fuel fuel g) as [[[[u1 u2] q] g'] |] eqn:Hloop;
    cbn [bind]; [| discriminate].
  intros [= <- <-].
  destruct (polar_loop_accepts m fuel fuel g g' u1 u2 q Hloop) as [-> Hrej].
  unfold rejected in Hrej. apply orb_false_iff in Hrej. destruct Hrej as [Hle Hgt].
  exists u1, u2, g'. cbv zeta.
  split; [reflexivity |]. split; [exact Hle |]. split; [exact Hgt |].
  split; [reflexivity |]. split; [reflexivity |].
  intros fuel'. reflexivity.
Qed.

Lemma randStdNorm_caches_spare_witness :
  exists (z : double) (g1 : ICG),
    randStdNorm (fun x : double => (- x)%float) Long32 10
      (mkICG true 7 3 2 1 1 0%float false) = Some (z, g1) /\
    useMullerNormal g1 = true /\
    randStdNorm (fun x : double => (- x)%float) Long32 10 g1 =
      Some (mullerNormal g1, set_muller g1 (mullerNormal g1) false).
Proof.
  destruct (randStdNorm (fun x : double => (- x)%float) Long32 10
              (mkICG true 7 3 2 1 1 0%float false)) as [[z g1] |] eqn:Hcall;
    [| vm_compute in Hcall; discriminate Hcall].
  destruct (randStdNorm_caches_spare (fun x : double => (- x)%float) Long32 10
              (mkICG true 7 3 2 1 1 0%float false) g1 z eq_refl Hcall)
    as (u1 & u2 & g' & _ & _ & _ & _ & Hg1 & Hnext).
  cbv zeta in Hg1, Hnext.
  exists z, g1. split; [reflexivity |].
  subst g1. split; [reflexivity |].
  apply (Hnext 10%nat).
Defined.

(** ** The class invariant *)

Lemma reachable_wf_witness : wf Long32 (mkICG true 7 3 2 1 5 0%float false).
Proof.
  apply (reachable_wf (fun x : double => x)).
  apply (reach_rand (fun x : double => x) Long32 10
           (mkICG true 7 3 2 1 1 0%float false) 5).
  - apply (reach_new (fun x : double => x) Long32 10 7 3 2 1 0%float false);
      try (unfold in_ulong; simpl; lia). reflexivity.
  - reflexivity.
Defined.

(** ** The cost of ICG::inverse and ICG::rand *)

(** Two iterations of the Euclidean loop halve [rn]: the loop ends within
    [2 * k + 2] tests when [rn < 2^k]. *)
Lemma euclid_loop_log (P y : Z) (k : nat) :
  P < 2 ^ 63 -> 2 <= y < P ->
  forall s : euclid,
    euclid_inv P y s -> rn s < 2 ^ Z.of_nat k ->
    forall fuel : nat, (2 * k + 2 <= fuel)%nat ->
    exists s' : euclid,
      euclid_loop fuel s = Some s' /\ euclid_inv P y s' /\ rn2 s' = 0.
Proof.
  intros H63 Hy. induction k as [| k IH]; intros s Hinv Hrn fuel Hfuel.
  - destruct Hinv as ((H1 & H2) & _). simpl in Hrn. lia.
  - destruct fuel as [| fuel]; [lia |]. cbn [euclid_loop].
    destruct (Z.eqb_spec (rn2 s) 0) as [E0 | N0]; [exists s; auto |].
    destruct (euclid_body_inv P y H63 Hy s Hinv) as (Hinv1 & Hz1 & Hlt1).
    destruct fuel as [| fuel]; [lia |]. cbn [euclid_loop].
    destruct (Z.eq_dec (rn s mod rn1 s) 0) as [Ediv | Ndiv].
    { rewrite (Hz1 Ediv). simpl. eauto. }
    assert (Hs1 : rn (euclid_body s) = rn1 s /\ rn1 (euclid_body s) = rn s mod rn1 s /\
                  rn2 (euclid_body s) = rn s mod rn1 s).
    { unfold euclid_body. destruct (Z.eqb_spec (rn s mod rn1 s) 0); [contradiction |].
      repeat split. }
    destruct Hs1 as (Ern & Ern1 & Ern2).
    destruct (Z.eqb_spec (rn2 (euclid_body s)) 0) as [E1 | N1]; [lia |].
    destruct (euclid_body_inv P y H63 Hy _ Hinv1) as (Hinv2 & Hz2 & Hlt2).
    destruct fuel as [| fuel]; [lia |].
    destruct (Z.eq_dec (rn (euclid_body s) mod rn1 (euclid_body s)) 0) as [Ediv2 | Ndiv2].
    { cbn [euclid_loop]. rewrite (Hz2 Ediv2). simpl. eauto. }
    apply IH; [exact Hinv2 | | lia].
    assert (Ern' : rn (euclid_body (euclid_body s)) = rn s mod rn1 s).
    { unfold euclid_body at 1.
      destruct (Z.eqb_spec (rn (euclid_body s) mod rn1 (euclid_body s)) 0);
        [contradiction |].
      cbn [rn]. exact Ern1. }
    rewrite Ern'.
    destruct Hinv as ((H1 & H2) & _).
    pose proof (Z.div_mod (rn s) (rn1 s) ltac:(lia)) as Hdm.
    pose proof (Z.mod_pos_bound (rn s) (rn1 s) ltac:(lia)) as Hmb.
    assert (Hd : 1 <= rn s / rn1 s).
    { apply Z.div_le_lower_bound; lia. }
    assert (Hhalf : 2 * (rn s mod rn1 s) < rn s) by nia.
    rewrite Nat2Z.inj_succ, Z.pow_succ_r in Hrn by lia. lia.
Qed.

(** X12: [inverse] and [rand] return within [2 * log2 (p) + 4] iterations
    of each of their loops, at most 128 for a modulus below [2^63]; the
    value of [rand] on a valid generator is a residue. *)
Theorem rand_returns_in_log_steps (m : data_model) (g : ICG) (fuel : nat) :
  wf m g -> p g < 2 ^ 63 -> generatorIsValid g = true ->
  (2 * Z.to_nat (Z.log2 (p g)) + 4 <= fuel)%nat ->
  (forall y : Z, 0 <= y < p g ->
     exists z : Z, inverse m fuel g y = Some z /\ 0 <= z < p g) /\
  (exists (x : Z) (g' : ICG), rand m fuel g = Some (x, g') /\ 0 <= x < p g) /\
  (2 * Z.to_nat (Z.log2 (p g)) + 4 <= 128)%nat.
Proof.
  intros Hwf H63 Hval Hfuel.
  assert (Hv : 3 < p g /\ a g < p g /\ b g < p g /\ seed g < p g /\ curRand g < p g)
    by (apply Hwf; exact Hval).
  assert (Hin : in_ulong m (p g) /\ in_ulong m (curRand g)) by (unfold wf in Hwf; tauto).
  destruct Hin as [Hp Hc].
  pose proof (Z.log2_nonneg (p g)) as Hl0.
  pose proof (Z.log2_spec (p g) ltac:(lia)) as Hlog.
  assert (Hl63 : Z.log2 (p g) < 63) by (apply Z.log2_lt_pow2; lia).
  assert (Hinverse : forall y : Z, 0 <= y < p g ->
            exists z : Z, inverse m fuel g y = Some z /\ 0 <= z < p g).
  { intros y Hy.
    destruct (Z.eq_dec y 0) as [-> | N0]; [exists 0; split; [reflexivity | lia] |].
    destruct (Z.eq_dec y 1) as [-> | N1]; [exists 1; split; [reflexivity | lia] |].
    assert (Hy2 : 2 <= y < p g) by lia.
    unfold inverse.
    destruct (Z.eqb_spec y 0); [lia |].
    destruct (Z.eqb_spec y 1); [lia |].
    destruct (Z.geb_spec y (p g)); [lia |].
    rewrite (to_ulong_id m (p g) Hp).
    destruct (euclid_loop_log (p g) y (Z.to_nat (Z.log2 (p g)) + 1) H63 Hy2 _
                (euclid_inv_init (p g) y Hy2)) with (fuel := fuel)
      as (s & Hs & Hinv & H0).
    - cbn [rn]. rewrite Nat2Z.inj_add, Z2Nat.id by lia.
      change (Z.of_nat 1) with 1. unfold Z.succ in Hlog. lia.
    - lia.
    - rewrite Hs. cbn [bind].
      destruct (euclid_exit (p g) y H63 Hy2 s Hinv H0) as (HR & _).
      rewrite (normalize_loop_spec (p g) H63 (Rn1 s) fuel HR) by lia.
      cbn [bind]. eexists. split; [reflexivity |].
      unfold in_ulong in Hp.
      set (z := if Rn1 s <? 0 then Rn1 s + p g else Rn1 s).
      assert (Hz : 0 <= z < p g)
        by (unfold z; destruct (Z.ltb_spec (Rn1 s) 0); lia).
      rewrite to_ulong_id by (unfold in_ulong; lia). exact Hz. }
  split; [exact Hinverse |]. split; [| lia].
  unfold rand. rewrite Hval. cbn [negb].
  destruct (Z.eqb_spec (curRand g) 0) as [E0 | N0].
  - eexists _, _. split; [reflexivity |].
    cbn [curRand set_curRand].
    assert (Hb : in_ulong m (b g)) by (unfold wf in Hwf; tauto).
    rewrite !(to_ulong_id m (b g) Hb). unfold in_ulong in Hb. lia.
  - rewrite (to_ulong_id m (curRand g) Hc). unfold in_ulong in Hc.
    destruct (Hinverse (curRand g) ltac:(lia)) as (z & Hz & _).
    rewrite Hz. cbn [bind]. eexists _, _. split; [reflexivity |].
    cbn [curRand set_curRand].
    set (t := to_ullong (to_ullong (a g * z) + b g) mod p g).
    assert (Ht : 0 <= t < p g) by (apply Z.mod_pos_bound; lia).
    assert (Hint : in_ulong m t) by (unfold in_ulong in *; lia).
    rewrite !(to_ulong_id m t Hint). exact Ht.
Qed.

Lemma rand_returns_in_log_steps_witness :
  exists (x : Z) (g' : ICG),
    rand Long64 50 (mkICG true 15485863 213 64 1 277 0%float false) = Some (x, g') /\
    0 <= x < 15485863.
Proof.
  apply (rand_returns_in_log_steps Long64
           (mkICG true 15485863 213 64 1 277 0%float false) 50).
  - unfold wf, in_ulong; simpl; lia.
  - simpl; lia.
  - reflexivity.
  - vm_compute. lia.
Defined.

(** ** What sampling leaves alone *)

Lemma same_parameters_refl (g : ICG) : same_parameters g g.
Proof. unfold same_parameters. tauto. Qed.

Lemma same_parameters_trans (g1 g2 g3 : ICG) :
  same_parameters g1 g2 -> same_parameters g2 g3 -> same_parameters g1 g3.
Proof. unfold same_parameters. intuition congruence. Qed.

Lemma rand_same_parameters (m : data_model) (fuel : nat) (g g' : ICG) (x : Z) :
  rand m fuel g = Some (x, g') ->
  same_parameters g g' /\ mullerNormal g' = mullerNormal g /\
  useMullerNormal g' = useMullerNormal g.
Proof.
  intros Hr. rewrite (rand_frame m fuel g g' x Hr).
  unfold same_parameters. cbn. tauto.
Qed.

Lemma randInterval_same_parameters (m : data_model) (fuel : nat) (g g' : ICG)
    (A B u : double) :
  randInterval m fuel g A B = Some (u, g') ->
  same_parameters g g' /\ mullerNormal g' = mullerNormal g /\
  useMullerNormal g' = useMullerNormal g.
Proof.
  unfold randInterval. destruct (negb (generatorIsValid g)).
  - intros [= _ <-]. split; [apply same_parameters_refl | tauto].
  - destruct (B =? A)%float.
    + intros [= _ <-]. split; [apply same_parameters_refl | tauto].
    + destruct (B <? A)%float;
        (destruct (rand m fuel g) as [[x g1] |] eqn:Hr; cbn [bind]; [| discriminate];
         intros [= _ <-]; exact (rand_same_parameters m fuel g g1 x Hr)).
Qed.

Lemma polar_loop_same_parameters (m : data_model) (fuel : nat) (n : nat) :
  forall (g g' : ICG) (u1 u2 q : double),
    polar_loop m fuel n g = Some (u1, u2, q, g') -> same_parameters g g'.
Proof.
  induction n as [| n IH]; intros g g' u1 u2 q; cbn [polar_loop]; [discriminate |].
  destruct (randInterval m fuel g (-1)%float 1%float) as [[v1 g1] |] eqn:H1;
    cbn [bind]; [| discriminate].
  destruct (randInterval m fuel g1 (-1)%float 1%float) as [[v2 g2] |] eqn:H2;
    cbn [bind]; [| discriminate].
  pose proof (proj1 (randInterval_same_parameters m fuel g g1 _ _ v1 H1)) as S1.
  pose proof (proj1 (randInterval_same_parameters m fuel g1 g2 _ _ v2 H2)) as S2.
  pose proof (same_parameters_trans g g1 g2 S1 S2) as S12.
  destruct ((v1 * v1 + v2 * v2 <=? EPS) || (1 <? v1 * v1 + v2 * v2))%float.
  - intros Hl. exact (same_parameters_trans g g2 g' S12 (IH g2 g' u1 u2 q Hl)).
  - intros [= _ _ _ <-]. exact S12.
Qed.

(** X13: no sampler changes the flag, [p], [a], [b] or [seed]: only the
    constructor, [reparametrize] and [reseed] assign them, so a generator
    stays valid (or invalid) while it is sampled.  The uniform samplers
    leave the cached spare alone as well. *)
Theorem samplers_keep_parameters (log : double -> double) (m : data_model)
    (fuel : nat) (g g' : ICG) :
  (forall x : Z, rand m fuel g = Some (x, g') ->
     same_parameters g g' /\ mullerNormal g' = mullerNormal g /\
     useMullerNormal g' = useMullerNormal g) /\
  (forall u : double, rand01 m fuel g = Some (u, g') ->
     same_parameters g g' /\ mullerNormal g' = mullerNormal g /\
     useMullerNormal g' = useMullerNormal g) /\
  (forall range x : Z, rand_range m fuel g range = Some (x, g') ->
     same_parameters g g' /\ mullerNormal g' = mullerNormal g /\
     useMullerNormal g' = useMullerNormal g) /\
  (forall A B u : double, randInterval m fuel g A B = Some (u, g') ->
     same_parameters g g' /\ mullerNormal g' = mullerNormal g /\
     useMullerNormal g' = useMullerNormal g) /\
  (forall z : double, randStdNorm log m fuel g = Some (z, g') -> same_parameters g g') /\
  (forall mu ss z : double,
     randNormal log m fuel g mu ss = Some (z, g') -> same_parameters g g').
Proof.
  assert (H01 : forall (u : double) (g1 : ICG), rand01 m fuel g = Some (u, g1) ->
     same_parameters g g1 /\ mullerNormal g1 = mullerNormal g /\
     useMullerNormal g1 = useMullerNormal g).
  { intros u g1. unfold rand01. destruct (negb (generatorIsValid g)).
    - intros [= _ <-]. split; [apply same_parameters_refl | tauto].
    - destruct (rand m fuel g) as [[x g2] |] eqn:Hr; cbn [bind]; [| discriminate].
      intros [= _ <-]. exact (rand_same_parameters m fuel g g2 x Hr). }
  assert (Hstd : forall (z : double) (g1 : ICG),
             randStdNorm log m fuel g = Some (z, g1) -> same_parameters g g1).
  { intros z g1. unfold randStdNorm. destruct (useMullerNormal g).
    - intros [= _ <-]. unfold same_parameters. cbn. tauto.
    - destruct (polar_loop m fuel fuel g) as [[[[u1 u2] q] g2] |] eqn:Hl; cbn [bind];
        [| discriminate].
      intros [= _ <-].
      pose proof (polar_loop_same_parameters m fuel fuel g g2 u1 u2 q Hl) as S.
      unfold same_parameters in *. cbn. exact S. }
  split; [intros x; apply rand_same_parameters |].
  split; [intros u; apply H01 |].
  split.
  { intros range x. unfold rand_range.
    destruct (rand01 m fuel g) as [[u g1] |] eqn:Hr; cbn [bind]; [| discriminate].
    intros [= _ <-]. exact (H01 u g1 eq_refl). }
  split; [intros A B u; apply randInterval_same_parameters |].
  split; [intros z; apply Hstd |].
  intros mu ss z. unfold randNormal.
  destruct (randStdNorm log m fuel g) as [[z1 g1] |] eqn:Hr; cbn [bind]; [| discriminate].
  intros [= _ <-]. exact (Hstd z1 g1 eq_refl).
Qed.

Lemma samplers_keep_parameters_witness :
  same_parameters (mkICG true 7 3 2 1 1 0%float false)
    (mkICG true 7 3 2 1 5 0%float false).
Proof.
  apply (proj1 (samplers_keep_parameters (fun x : double => x) Long32 10
           (mkICG true 7 3 2 1 1 0%float false) (mkICG true 7 3 2 1 5 0%float false)) 5).
  reflexivity.
Defined.
